(** * Separating-axis intersection test (practice14/intersect.hpp, aabb, frustum)

    A shallow embedding of the convex-shape intersection test used for
    frustum culling, of the axis-aligned box and of the view frustum,
    followed by the mesh helpers [bbox] and [fill_normals], the sampling
    of a [glm::vec3] spline and the Bezier curves of practice 3.

    Number model.  The C++ code computes on [float].  Here a finite
    [float] is an exact rational ([Q]): rounding, overflow and NaN are not
    modelled.  The only infinite values the code itself writes are the two
    initial accumulators of [project] (+inf and -inf); the type [float]
    below therefore extends [Q] with the two infinities, while the
    components of a [glm::vec3] are finite.  A quotient by zero, which the
    frustum constructor can meet when a transformed corner has [w = 0], is
    the quotient of [Q] (zero), not an infinity. *)

From Stdlib Require Import QArith Qfield Lqa ZArith NArith Lia List Bool.
Import ListNotations.

Local Open Scope Q_scope.

(** ** The parts of GLM the code uses *)

Module glm.

  (** [glm::vec3]: three finite components. *)
Record vec3 : Type := Vec3 { x : Q; y : Q; z : Q }.

  (** [glm::vec4]. *)
Record vec4 : Type := Vec4 { x4 : Q; y4 : Q; z4 : Q; w4 : Q }.

  (** [glm::mat4], column-major: [m[c]] is column [c]. *)
Record mat4 : Type := Mat4 { c0 : vec4; c1 : vec4; c2 : vec4; c3 : vec4 }.

  (** [glm::dot(a, b)]: the sum of the componentwise products. *)
Definition dot (a b : vec3) : Q :=
    x a * x b + y a * y b + z a * z b.

  (** [glm::cross(a, b)]. *)
Definition cross (a b : vec3) : vec3 :=
    Vec3 (y a * z b - y b * z a)
         (z a * x b - z b * x a)
         (x a * y b - x b * y a).

  (** [a - b] on [vec3]. *)
Definition sub (a b : vec3) : vec3 :=
    Vec3 (x a - x b) (y a - y b) (z a - z b).

  (** Componentwise equality of vectors up to equality of rationals. *)
Definition veq (a b : vec3) : Prop :=
    x a == x b /\ y a == y b /\ z a == z b.

  (** The vector [-a]. *)
Definition neg (a : vec3) : vec3 := Vec3 (- x a) (- y a) (- z a).

Definition zero : vec3 := Vec3 0 0 0.

End glm.
Import glm.

(** ** Values of type [float] *)

Inductive float : Type :=
| NegInf
| Fin (q : Q)
| PosInf.

(** [std::numeric_limits<float>::infinity()]. *)
Definition inf : float := PosInf.

(** Unary minus. *)
Definition fneg (a : float) : float :=
  match a with
  | NegInf => PosInf
  | Fin q => Fin (- q)
  | PosInf => NegInf
  end.

(** [a <= b]. *)
Definition fle (a b : float) : bool :=
  match a, b with
  | NegInf, _ => true
  | _, PosInf => true
  | Fin p, Fin q => Qle_bool p q
  | _, _ => false
  end.

(** [a < b]. *)
Definition flt (a b : float) : bool :=
  match a, b with
  | PosInf, _ => false
  | _, NegInf => false
  | Fin p, Fin q => negb (Qle_bool q p)
  | _, _ => true
  end.

(** [std::min(a, b)] is [(b < a) ? b : a]. *)
Definition std_min (a b : float) : float := if flt b a then b else a.

(** [std::max(a, b)] is [(a < b) ? b : a]. *)
Definition std_max (a b : float) : float := if flt a b then b else a.

(** ** The shape contract

    [intersect.hpp] is generic in the two body types: a body is anything
    with [vertices], [face_normals] and [edge_directions]. *)

Class Body (T : Type) : Type := {
  vertices : T -> list vec3;
  face_normals : T -> list vec3;
  edge_directions : T -> list vec3
}.

(** A body given by its three sequences. *)
Record shape : Type := Shape {
  shape_vertices : list vec3;
  shape_face_normals : list vec3;
  shape_edge_directions : list vec3
}.

#[export] Instance shape_Body : Body shape := {
  vertices := shape_vertices;
  face_normals := shape_face_normals;
  edge_directions := shape_edge_directions
}.

(** ** project *)

(** The loop of [project] over the vertices, with the two accumulators. *)
Fixpoint project_loop (ps : list vec3) (n : vec3) (min max : float)
  : float * float :=
  match ps with
  | [] => (min, max)
  | p :: ps' =>
      let v := Fin (dot p n) in
      project_loop ps' n (std_min min v) (std_max max v)
  end.

Definition project {T} `{Body T} (b : T) (n : vec3) : float * float :=
  project_loop (vertices b) n inf (fneg inf).

(** ** intersect_along *)

Definition intersect_along {T1 T2} `{Body T1} `{Body T2}
  (b1 : T1) (b2 : T2) (n : vec3) : bool :=
  let '(min1, max1) := project b1 n in
  let '(min2, max2) := project b2 n in
  fle min1 max2 && fle min2 max1.

(** ** intersect

    [intersect] leaves its loops by [return false].  The embedding runs in
    a small monad that carries, besides the early return, the sequence of
    axes handed to [intersect_along] so far, so that the order of the tests
    and the point where the function stops can be stated. *)

Module Run.

  (** A computation has either returned from the function ([inl r]) or
      goes on with a value ([inr a]); [fst] lists the axes tested. *)
Definition M (A : Type) : Type := list vec3 * (bool + A).

Definition ret {A} (a : A) : M A := ([], inr a).

  (** [return r;] *)
Definition return_ {A} (r : bool) : M A := ([], inl r).

Definition bind {A B} (m : M A) (k : A -> M B) : M B :=
    match m with
    | (t, inl r) => (t, inl r)
    | (t, inr a) => let '(t', o) := k a in (t ++ t', o)
    end.

  (** Run [test] on axis [n], recording the axis. *)
Definition probe (test : vec3 -> bool) (n : vec3) : M bool :=
    ([n], inr (test n)).

  (** [for (auto const & a : l) body(a)] *)
Fixpoint for_each {A} (l : list A) (body : A -> M unit) : M unit :=
    match l with
    | [] => ret tt
    | a :: l' => bind (body a) (fun _ => for_each l' body)
    end.

  (** The result of a function body that ends in a [return]. *)
Definition run (m : M bool) : bool * list vec3 :=
    match m with
    | (t, inl r) => (r, t)
    | (t, inr r) => (r, t)
    end.

End Run.

Notation "x <- m ;; k" := (Run.bind m (fun x => k))
  (at level 61, m at next level, right associativity).
Notation "m ;;; k" := (Run.bind m (fun _ => k))
  (at level 61, right associativity).

Section Intersect.

Context {Body1 Body2 : Type} `{Body Body1} `{Body Body2}.
Variables (b1 : Body1) (b2 : Body2).

  (** [if (!intersect_along(b1, b2, n)) return false;] *)
Definition check_axis (n : vec3) : Run.M unit :=
    ok <- Run.probe (intersect_along b1 b2) n ;;
    if negb ok then Run.return_ false else Run.ret tt.

Definition intersect_body : Run.M bool :=
    Run.for_each (face_normals b1) check_axis ;;;
    Run.for_each (face_normals b2) check_axis ;;;
    Run.for_each (edge_directions b1) (fun e1 =>
      Run.for_each (edge_directions b2) (fun e2 =>
        let n := cross e1 e2 in
        check_axis n)) ;;;
    Run.return_ true.

  (** The result of [intersect] together with the axes it tested. *)
Definition intersect_traced : bool * list vec3 := Run.run intersect_body.

Definition intersect : bool := fst intersect_traced.

End Intersect.

(** ** Arrays and counting loops *)

(** [a[i] = v] on a [std::array]; the index is in range wherever the code
    writes (outside the range the list is left as it is). *)
Fixpoint upd {A} (i : nat) (v : A) (a : list A) : list A :=
  match a, i with
  | [], _ => []
  | _ :: t, O => v :: t
  | h :: t, S j => h :: upd j v t
  end.

(** [a[i]] *)
Definition at_ (a : list vec3) (i : N) : vec3 := nth (N.to_nat i) a zero.

(** [for (std::size_t i = lo; i < lo + count; ++i) s = body(i, s)] *)
Fixpoint for_range {S} (count : nat) (i : N) (body : N -> S -> S) (s : S) : S :=
  match count with
  | O => s
  | Datatypes.S c => for_range c (i + 1)%N body (body i s)
  end.

(** [(i & mask) ? a : b] *)
Definition select {A} (i mask : N) (a b : A) : A :=
  if N.eqb (N.land i mask) 0 then b else a.

(** ** aabb *)

Record aabb : Type := Aabb {
  aabb_vertices : list vec3 (* std::array<glm::vec3, 8> *)
}.

(** The value assigned to [vertices[i]] by the constructor. *)
Definition aabb_vertex (min max : vec3) (i : N) : vec3 :=
  Vec3 (select i 1 (x max) (x min))
       (select i 2 (y max) (y min))
       (select i 4 (z max) (z min)).

(** [aabb::aabb(min, max)].  The array holds unspecified values before the
    loop; every element is assigned. *)
Definition make_aabb (min max : vec3) : aabb :=
  Aabb (for_range 8 0%N
          (fun i vs => upd (N.to_nat i) (aabb_vertex min max i) vs)
          (repeat zero 8)).

(** [aabb::face_normals] *)
Definition aabb_face_normals : list vec3 :=
  [ Vec3 1 0 0; Vec3 0 1 0; Vec3 0 0 1 ].

(** [aabb::edge_directions] *)
Definition aabb_edge_directions : list vec3 :=
  [ Vec3 1 0 0; Vec3 0 1 0; Vec3 0 0 1 ].

#[export] Instance aabb_Body : Body aabb := {
  vertices := aabb_vertices;
  face_normals := fun _ => aabb_face_normals;
  edge_directions := fun _ => aabb_edge_directions
}.

(** ** Matrices (GLM) *)

Module mat.

Definition vadd (a b : vec4) : vec4 :=
    Vec4 (x4 a + x4 b) (y4 a + y4 b) (z4 a + z4 b) (w4 a + w4 b).
Definition vsub (a b : vec4) : vec4 :=
    Vec4 (x4 a - x4 b) (y4 a - y4 b) (z4 a - z4 b) (w4 a - w4 b).
Definition vmul (a b : vec4) : vec4 :=
    Vec4 (x4 a * x4 b) (y4 a * y4 b) (z4 a * z4 b) (w4 a * w4 b).
  (** [v * s] *)
Definition vscale (a : vec4) (s : Q) : vec4 :=
    Vec4 (x4 a * s) (y4 a * s) (z4 a * s) (w4 a * s).
  (** [v / s] *)
Definition vdiv (a : vec4) (s : Q) : vec4 :=
    Vec4 (x4 a / s) (y4 a / s) (z4 a / s) (w4 a / s).
  (** [v.xyz()] *)
Definition xyz (a : vec4) : vec3 := Vec3 (x4 a) (y4 a) (z4 a).

Definition veq4 (a b : vec4) : Prop :=
    x4 a == x4 b /\ y4 a == y4 b /\ z4 a == z4 b /\ w4 a == w4 b.

  (** [m * v]: the combination of the columns of [m] by the components
      of [v]. *)
Definition mul_mv (m : mat4) (v : vec4) : vec4 :=
    vadd (vadd (vscale (c0 m) (x4 v)) (vscale (c1 m) (y4 v)))
         (vadd (vscale (c2 m) (z4 v)) (vscale (c3 m) (w4 v))).

  (** [glm::inverse] of a 4x4 matrix: the transposed cofactors, scaled by
      one over the determinant.  [mcr] stands for [m[c][r]]. *)
Section Inverse.
Variable m : mat4.

Let m00 := x4 (c0 m).
Let m01 := y4 (c0 m).
Let m02 := z4 (c0 m).
Let m03 := w4 (c0 m).
Let m10 := x4 (c1 m).
Let m11 := y4 (c1 m).
Let m12 := z4 (c1 m).
Let m13 := w4 (c1 m).
Let m20 := x4 (c2 m).
Let m21 := y4 (c2 m).
Let m22 := z4 (c2 m).
Let m23 := w4 (c2 m).
Let m30 := x4 (c3 m).
Let m31 := y4 (c3 m).
Let m32 := z4 (c3 m).
Let m33 := w4 (c3 m).

    (** The matrix of signed cofactors, before the division. *)
Definition cofactors : mat4 :=
      let Coef00 := m22 * m33 - m32 * m23 in
      let Coef02 := m12 * m33 - m32 * m13 in
      let Coef03 := m12 * m23 - m22 * m13 in
      let Coef04 := m21 * m33 - m31 * m23 in
      let Coef06 := m11 * m33 - m31 * m13 in
      let Coef07 := m11 * m23 - m21 * m13 in
      let Coef08 := m21 * m32 - m31 * m22 in
      let Coef10 := m11 * m32 - m31 * m12 in
      let Coef11 := m11 * m22 - m21 * m12 in
      let Coef12 := m20 * m33 - m30 * m23 in
      let Coef14 := m10 * m33 - m30 * m13 in
      let Coef15 := m10 * m23 - m20 * m13 in
      let Coef16 := m20 * m32 - m30 * m22 in
      let Coef18 := m10 * m32 - m30 * m12 in
      let Coef19 := m10 * m22 - m20 * m12 in
      let Coef20 := m20 * m31 - m30 * m21 in
      let Coef22 := m10 * m31 - m30 * m11 in
      let Coef23 := m10 * m21 - m20 * m11 in
      let Fac0 := Vec4 Coef00 Coef00 Coef02 Coef03 in
      let Fac1 := Vec4 Coef04 Coef04 Coef06 Coef07 in
      let Fac2 := Vec4 Coef08 Coef08 Coef10 Coef11 in
      let Fac3 := Vec4 Coef12 Coef12 Coef14 Coef15 in
      let Fac4 := Vec4 Coef16 Coef16 Coef18 Coef19 in
      let Fac5 := Vec4 Coef20 Coef20 Coef22 Coef23 in
      let Vec0 := Vec4 m10 m00 m00 m00 in
      let Vec1 := Vec4 m11 m01 m01 m01 in
      let Vec2 := Vec4 m12 m02 m02 m02 in
      let Vec3 := Vec4 m13 m03 m03 m03 in
      let Inv0 := vadd (vsub (vmul Vec1 Fac0) (vmul Vec2 Fac1)) (vmul Vec3 Fac2) in
      let Inv1 := vadd (vsub (vmul Vec0 Fac0) (vmul Vec2 Fac3)) (vmul Vec3 Fac4) in
      let Inv2 := vadd (vsub (vmul Vec0 Fac1) (vmul Vec1 Fac3)) (vmul Vec3 Fac5) in
      let Inv3 := vadd (vsub (vmul Vec0 Fac2) (vmul Vec1 Fac4)) (vmul Vec2 Fac5) in
      let SignA := Vec4 1 (-1) 1 (-1) in
      let SignB := Vec4 (-1) 1 (-1) 1 in
      Mat4 (vmul Inv0 SignA) (vmul Inv1 SignB) (vmul Inv2 SignA) (vmul Inv3 SignB).

    (** The determinant, as [glm::inverse] computes it: the first column
        of [m] against the first row of the cofactors. *)
Definition determinant : Q :=
      let Inverse := cofactors in
      let Row0 := Vec4 (x4 (c0 Inverse)) (x4 (c1 Inverse))
                       (x4 (c2 Inverse)) (x4 (c3 Inverse)) in
      let Dot0 := vmul (c0 m) Row0 in
      (x4 Dot0 + y4 Dot0) + (z4 Dot0 + w4 Dot0).

Definition inverse : mat4 :=
      let Inverse := cofactors in
      let OneOverDeterminant := 1 / determinant in
      Mat4 (vscale (c0 Inverse) OneOverDeterminant)
           (vscale (c1 Inverse) OneOverDeterminant)
           (vscale (c2 Inverse) OneOverDeterminant)
           (vscale (c3 Inverse) OneOverDeterminant).
End Inverse.

End mat.
Import mat.

(** ** frustum *)

Record frustum : Type := Frustum {
  frustum_vertices : list vec3;        (* std::array<glm::vec3, 8> *)
  frustum_face_normals : list vec3;    (* std::array<glm::vec3, 5> *)
  frustum_edge_directions : list vec3  (* std::array<glm::vec3, 6> *)
}.

(** The clip-space corner numbered [i]. *)
Definition clip_corner (i : N) : vec4 :=
  Vec4 (select i 1 1 (-1)) (select i 2 1 (-1)) (select i 4 1 (-1)) 1.

(** The body of the vertex loop of the constructor. *)
Definition frustum_vertex (m : mat4) (i : N) : vec3 :=
  let v := clip_corner i in
  let v := mul_mv m v in
  let v := vdiv v (w4 v) in
  xyz v.

(** [frustum::frustum(view_projection)] *)
Definition make_frustum (view_projection : mat4) : frustum :=
  let m := inverse view_projection in
  let vertices :=
    for_range 8 0%N
      (fun i vs => upd (N.to_nat i) (frustum_vertex m i) vs)
      (repeat zero 8) in
  let n := fun i0 i1 i2 : N =>
    cross (sub (at_ vertices i1) (at_ vertices i0))
          (sub (at_ vertices i2) (at_ vertices i0)) in
  let face_normals :=
    [ n 0 1 2; n 4 0 2; n 1 5 3; n 0 4 1; n 2 3 6 ]%N in
  let e := fun i0 i1 : N => sub (at_ vertices i1) (at_ vertices i0) in
  let edge_directions :=
    [ e 0 1; e 0 2; e 0 4; e 1 5; e 2 6; e 3 7 ]%N in
  Frustum vertices face_normals edge_directions.

#[export] Instance frustum_Body : Body frustum := {
  vertices := frustum_vertices;
  face_normals := frustum_face_normals;
  edge_directions := frustum_edge_directions
}.

(** ** The interval overlap test on boxes, as the specification words it *)

(** The three-axis interval overlap test on the corner points. *)
Definition naive_aabb_overlap (minA maxA minB maxB : vec3) : bool :=
  (Qle_bool (x minA) (x maxB) && Qle_bool (x minB) (x maxA)) &&
  (Qle_bool (y minA) (y maxB) && Qle_bool (y minB) (y maxA)) &&
  (Qle_bool (z minA) (z maxB) && Qle_bool (z minB) (z maxA)).

(** ** Notions used in the statements *)

(** [min <= max] on every axis. *)
Definition well_formed (min max : vec3) : Prop :=
  x min <= x max /\ y min <= y max /\ z min <= z max.

(** The axes [intersect] tests, in the order it tests them. *)
Definition sat_axes {T1 T2} `{Body T1} `{Body T2} (a : T1) (b : T2)
  : list vec3 :=
  face_normals a ++ face_normals b ++
  flat_map (fun eA => map (fun eB => cross eA eB) (edge_directions b))
           (edge_directions a).

(** The dot products of the vertices with the axis. *)
Definition dots (ps : list vec3) (n : vec3) : list Q :=
  map (fun p => dot p n) ps.

(** [m] is a least element of [l]. *)
Definition is_min (m : Q) (l : list Q) : Prop :=
  In m l /\ forall v, In v l -> m <= v.

(** [m] is a greatest element of [l]. *)
Definition is_max (m : Q) (l : list Q) : Prop :=
  In m l /\ forall v, In v l -> v <= m.

(** [a] projects no further than [b] along [n], for some vertex [a] of the
    first body and some vertex [b] of the second. *)
Definition reaches {T1 T2} `{Body T1} `{Body T2}
  (b1 : T1) (b2 : T2) (n : vec3) : Prop :=
  exists p q, In p (vertices b1) /\ In q (vertices b2) /\ dot p n <= dot q n.

(** The axes of [ns] up to and including the first one on which the test
    [t] fails (all of [ns] when none fails). *)
Fixpoint tested (t : vec3 -> bool) (ns : list vec3) : list vec3 :=
  match ns with
  | [] => []
  | n :: ns' => if t n then n :: tested t ns' else [n]
  end.

(** How a call ends: it returns a value, or it stops on a failed assertion
    or a thrown error. *)
Inductive outcome (A : Type) : Type :=
| Returns (a : A)
| Fails.
Arguments Returns {A} a.
Arguments Fails {A}.

(** A call of [project].  The function contains no assertion and no
    [throw]: every call returns. *)
Definition project_call {T} `{Body T} (b : T) (n : vec3)
  : outcome (float * float) :=
  Returns (project b n).

(** [k * a] on [vec3]. *)
Definition scale (k : Q) (a : vec3) : vec3 :=
  Vec3 (k * x a) (k * y a) (k * z a).

(** Two edge directions are parallel: one is a multiple of the other. *)
Definition parallel (e1 e2 : vec3) : Prop :=
  exists k : Q, veq e2 (scale k e1) \/ veq e1 (scale k e2).

(** The interval [[lo, hi]] is the single point 0. *)
Definition collapsed (i : float * float) : Prop :=
  exists lo hi : Q, i = (Fin lo, Fin hi) /\ lo == 0 /\ hi == 0.

(** ** Inputs used in the examples *)

Definition unit_box : aabb := make_aabb (Vec3 0 0 0) (Vec3 1 1 1).
Definition far_box : aabb := make_aabb (Vec3 2 0 0) (Vec3 3 1 1).
Definition near_box : aabb := make_aabb (Vec3 0.5 0 0) (Vec3 1.5 1 1).
Definition empty_shape : shape := Shape [] [] [].

(** The closed intervals [[loA, hiA]] and [[loB, hiB]] meet. *)
Definition overlap_1d (loA hiA loB hiB : Q) : Prop :=
  loA <= hiB /\ loB <= hiA.

(** A perspective projection with a right angle of view, aspect 1, near
    plane 1 and far plane 3. *)
Definition perspective_1_3 : mat4 :=
  Mat4 (Vec4 1 0 0 0) (Vec4 0 1 0 0) (Vec4 0 0 (-2) (-1)) (Vec4 0 0 (-3) 0).

(** ** Notions used in the further properties *)

(** Along [n] every vertex of one body lies strictly before every vertex
    of the other. *)
Definition separated_on {T1 T2} `{Body T1} `{Body T2}
  (a : T1) (b : T2) (n : vec3) : Prop :=
  (forall p q, In p (vertices a) -> In q (vertices b) -> dot p n < dot q n) \/
  (forall p q, In p (vertices a) -> In q (vertices b) -> dot q n < dot p n).

(** [a + b] on [vec3]. *)
Definition vplus (a b : vec3) : vec3 :=
  Vec3 (x a + x b) (y a + y b) (z a + z b).

(** The combination of the points [ps] with the weights [ws]. *)
Fixpoint combination (ws : list Q) (ps : list vec3) : vec3 :=
  match ws, ps with
  | w :: ws', p :: ps' => vplus (scale w p) (combination ws' ps')
  | _, _ => zero
  end.

(** The sum of the weights. *)
Fixpoint total (ws : list Q) : Q :=
  match ws with
  | [] => 0
  | w :: ws' => w + total ws'
  end.

(** [c] is a convex combination of the points [ps]. *)
Definition in_hull (ps : list vec3) (c : vec3) : Prop :=
  exists ws : list Q,
    length ws = length ps /\ (forall w, In w ws -> 0 <= w) /\
    total ws == 1 /\ veq c (combination ws ps).

(** [n'] is a multiple of [n] by a factor that is not zero. *)
Definition same_line (n n' : vec3) : Prop :=
  exists k : Q, ~ k == 0 /\ veq n' (scale k n).

(** The componentwise minimum and maximum of two corner points. *)
Definition corner_min (a b : vec3) : vec3 :=
  Vec3 (if Qle_bool (x a) (x b) then x a else x b)
       (if Qle_bool (y a) (y b) then y a else y b)
       (if Qle_bool (z a) (z b) then z a else z b).

Definition corner_max (a b : vec3) : vec3 :=
  Vec3 (if Qle_bool (x a) (x b) then x b else x a)
       (if Qle_bool (y a) (y b) then y b else y a)
       (if Qle_bool (z a) (z b) then z b else z a).

(** The box [[minA, maxA]] lies inside the box [[minB, maxB]]. *)
Definition box_inside (minA maxA minB maxB : vec3) : Prop :=
  (x minB <= x minA /\ x maxA <= x maxB) /\
  (y minB <= y minA /\ y maxA <= y maxB) /\
  (z minB <= z minA /\ z maxA <= z maxB).

(** The unit box with its vertices in reverse order and its axes rescaled. *)
Definition rescaled_unit_box : shape :=
  Shape (rev (vertices unit_box))
        [ Vec3 (-2) 0 0; Vec3 0 3 0; Vec3 0 0 (-1) ]
        [ Vec3 (1 # 2) 0 0; Vec3 0 (-1) 0; Vec3 0 0 5 ].

(** ** mesh_utils: bbox *)

(** A [glm::vec3] whose components may be infinite: the accumulators of
    [bbox] start at plus and minus infinity. *)
Record fvec3 : Type := FVec3 { fx : float; fy : float; fz : float }.

(** A [glm::vec3] with finite components, as a [fvec3]. *)
Definition of_vec3 (v : vec3) : fvec3 :=
  FVec3 (Fin (x v)) (Fin (y v)) (Fin (z v)).

(** [glm::vec3(s)]: all three components are [s]. *)
Definition splat (s : float) : fvec3 := FVec3 s s s.

(** [glm::min(a, b)]: componentwise [(b < a) ? b : a]. *)
Definition glm_min (a b : fvec3) : fvec3 :=
  FVec3 (std_min (fx a) (fx b)) (std_min (fy a) (fy b))
        (std_min (fz a) (fz b)).

(** [glm::max(a, b)]: componentwise [(a < b) ? b : a]. *)
Definition glm_max (a b : fvec3) : fvec3 :=
  FVec3 (std_max (fx a) (fx b)) (std_max (fy a) (fy b))
        (std_max (fz a) (fz b)).

Module mesh_utils.

(** [struct vertex] of mesh_utils.hpp. *)
Record vertex : Type := Vertex { position : vec3; normal : vec3 }.

(** The loop of [bbox] with its two accumulators. *)
Fixpoint bbox_loop (vertices : list vertex) (min max : fvec3)
  : fvec3 * fvec3 :=
  match vertices with
  | [] => (min, max)
  | v :: vs =>
      bbox_loop vs (glm_min min (of_vec3 (position v)))
                   (glm_max max (of_vec3 (position v)))
  end.

(** [bbox(vertices)] *)
Definition bbox (vertices : list vertex) : fvec3 * fvec3 :=
  bbox_loop vertices (splat inf) (splat (fneg inf)).

End mesh_utils.

(** A mesh as a body: its vertices are the positions; the face normals
    and edge directions are supplied from outside. *)
Definition mesh_shape (vs : list mesh_utils.vertex)
  (normals edges : list vec3) : shape :=
  Shape (map mesh_utils.position vs) normals edges.

(** The running minimum and maximum of a list of numbers, as [project] and
    [bbox] compute them. *)
Fixpoint scan (qs : list Q) (min max : float) : float * float :=
  match qs with
  | [] => (min, max)
  | q :: qs' => scan qs' (std_min min (Fin q)) (std_max max (Fin q))
  end.

(** A triangle mesh used in the examples. *)
Definition example_mesh : list mesh_utils.vertex :=
  [ mesh_utils.Vertex (Vec3 1 0 (-2)) zero;
    mesh_utils.Vertex (Vec3 0 3 1) zero;
    mesh_utils.Vertex (Vec3 (-1) 2 0) zero ].

(** ** gltf_loader.hpp: sampling a spline of [glm::vec3] *)

(** How a call that reads arrays and checks an assertion ends. *)
Inductive result (A : Type) : Type :=
| Value (a : A)       (* the call returns [a] *)
| AssertFailed        (* an [assert] does not hold *)
| OutOfBounds         (* an element outside an array is read or written *)
| Overflow            (* a signed integer operation overflows *)
| Throws.             (* an exception leaves the function *)
Arguments Value {A} a.
Arguments AssertFailed {A}.
Arguments OutOfBounds {A}.
Arguments Overflow {A}.
Arguments Throws {A}.

(** [std::lower_bound(first, last, value) - first] on a range whose
    elements less than [value] come before all the others (a sorted range
    is one): the number of these elements.  The C++ standard leaves the
    result open on other ranges; the properties below that depend on the
    position assume such a range. *)
Fixpoint lower_bound (ts : list Q) (value : Q) : nat :=
  match ts with
  | [] => O
  | t :: ts' =>
      if negb (Qle_bool value t) then S (lower_bound ts' value) else O
  end.

(** [glm::lerp(a, b, t)], that is [a * (1 - t) + b * t]. *)
Definition lerp (a b : vec3) (t : Q) : vec3 :=
  Vec3 (x a * (1 - t) + x b * t)
       (y a * (1 - t) + y b * t)
       (z a * (1 - t) + z b * t).

Module gltf_model.

(** [gltf_model::spline<glm::vec3>] *)
Record spline : Type := Spline {
  timestamps : list Q;
  values : list vec3
}.

(** [spline<glm::vec3>::operator()(time)], with its [assert] enabled. *)
Definition spline_at (s : spline) (time : Q) : result vec3 :=
  match values s with
  | [] => AssertFailed
  | _ :: _ =>
      let i := lower_bound (timestamps s) time in
      if Nat.eqb i 0 then Value (last (values s) zero)
      else if Nat.eqb i (length (timestamps s))
      then Value (last (values s) zero)
      else
        let t := (time - nth (i - 1) (timestamps s) 0) /
                 (nth i (timestamps s) 0 - nth (i - 1) (timestamps s) 0) in
        match nth_error (values s) (i - 1), nth_error (values s) i with
        | Some v0, Some v1 => Value (lerp v0 v1 t)
        | _, _ => OutOfBounds
        end
  end.

End gltf_model.

(** The timestamps increase strictly. *)
Fixpoint increasing (ts : list Q) : Prop :=
  match ts with
  | [] => True
  | t :: ts' => (forall u, In u ts' -> t < u) /\ increasing ts'
  end.

(** [v] lies between [a] and [b] on every axis. *)
Definition between (a b v : vec3) : Prop :=
  ((x a <= x v <= x b) \/ (x b <= x v <= x a)) /\
  ((y a <= y v <= y b) \/ (y b <= y v <= y a)) /\
  ((z a <= z v <= z b) \/ (z b <= z v <= z a)).

(** A spline with three keys. *)
Definition example_spline : gltf_model.spline :=
  gltf_model.Spline [0; 1; 3] [Vec3 0 0 0; Vec3 2 0 0; Vec3 2 4 0].

(** ** practice3: Bezier curves *)

Module practice3.

(** [struct vec2] *)
Record vec2 : Type := Vec2 { x : Q; y : Q }.

(** [struct vertex]: a position, the length of the curve up to it, and a
    colour of four bytes. *)
Record vertex : Type := Vertex {
  position : vec2;
  dist : Q;
  color : list Z
}.

(** One assignment of the inner loop of [bezier]:
    [points[i] = points[i] * (1 - t) + points[i + 1] * t], on [x] then
    on [y]. *)
Definition blend (t : Q) (i : N) (points : list vec2) : list vec2 :=
  let a := nth (N.to_nat i) points (Vec2 0 0) in
  let b := nth (N.to_nat i + 1) points (Vec2 0 0) in
  upd (N.to_nat i)
      (Vec2 (x a * (1 - t) + x b * t) (y a * (1 - t) + y b * t))
      points.

(** [bezier(vertices, t)].  The loop [for (k = 0; k + 1 < n; ++k)] runs
    [n - 1] times and the loop [for (i = 0; i + k + 1 < n; ++i)] runs
    [n - (k + 1)] times; inside them every index is in range.  The final
    [points[0]] reads outside the array when there is no vertex. *)
Definition bezier (vertices : list vertex) (t : Q) : result vec2 :=
  let n := length vertices in
  let points := repeat (Vec2 0 0) n in
  let points :=
    for_range n 0%N
      (fun i ps =>
         upd (N.to_nat i)
             (position (nth (N.to_nat i) vertices (Vertex (Vec2 0 0) 0 [])))
             ps)
      points in
  let points :=
    for_range (n - 1) 0%N
      (fun k ps => for_range (n - (N.to_nat k + 1)) 0%N (blend t) ps)
      points in
  match points with
  | [] => OutOfBounds
  | p :: _ => Value p
  end.

(** The conversion of an integer to [int]: its value modulo 2^32, read as
    a signed number. *)
Definition to_int (z : Z) : Z :=
  let w := (z mod 4294967296)%Z in
  if (w <? 2147483648)%Z then w else (w - 4294967296)%Z.

(** The colour [{255, 0, 0, 255}]. *)
Definition red : list Z := [255; 0; 0; 255]%Z.

(** A value-initialised [vertex]. *)
Definition blank : vertex := Vertex (Vec2 0 0) 0 [0; 0; 0; 0]%Z.

Section MakeBezier.

(** [std::hypot], which needs a square root, is taken as given. *)
Variable hypot : Q -> Q -> Q.

(** The loop [for (int i = 1; i <= count; ++i)] of [make_bezier], with
    [steps] iterations left. *)
Fixpoint sample_loop (vertices : list vertex) (count : Z) (steps : nat)
  (i : Z) (ans : list vertex) : result (list vertex) :=
  match steps with
  | O => Value ans
  | S steps' =>
      match bezier vertices (inject_Z i * 1 / inject_Z count) with
      | Value cur =>
          let prev := nth (Z.to_nat (i - 1)) ans blank in
          sample_loop vertices count steps' (i + 1)
            (upd (Z.to_nat i)
                 (Vertex cur
                    (dist prev + hypot (x (position prev) - x cur)
                                       (y (position prev) - y cur))
                    red)
                 ans)
      | AssertFailed => AssertFailed
      | OutOfBounds => OutOfBounds
      | Overflow => Overflow
      | Throws => Throws
      end
  end.

(** [make_bezier(vertices, quality)].  [count + 1] overflows when [count]
    is the greatest [int]; a negative [count + 1] becomes a size beyond
    what a vector can hold and the constructor of [ans] throws; with
    [count + 1] equal to 0 the assignment to [ans[0]] is outside [ans]. *)
Definition make_bezier (vertices : list vertex) (quality : Z)
  : result (list vertex) :=
  if (length vertices <? 2)%nat then Value []
  else
    let count := to_int ((Z.of_nat (length vertices) - 1) * quality) in
    if (count =? 2147483647)%Z then Overflow
    else if (count + 1 <? 0)%Z then Throws
    else
      let ans := repeat blank (Z.to_nat (count + 1)) in
      match bezier vertices 0 with
      | Value first =>
          match ans with
          | [] => OutOfBounds
          | _ :: _ =>
              sample_loop vertices count (Z.to_nat count) 1
                (upd 0 (Vertex first 0 red) ans)
          end
      | AssertFailed => AssertFailed
      | OutOfBounds => OutOfBounds
      | Overflow => Overflow
      | Throws => Throws
      end.

End MakeBezier.

End practice3.

(** [a * (1 - t) + b * t] on [vec2]. *)
Definition mix2 (t : Q) (a b : practice3.vec2) : practice3.vec2 :=
  practice3.Vec2
    (practice3.x a * (1 - t) + practice3.x b * t)
    (practice3.y a * (1 - t) + practice3.y b * t).

(** One level of De Casteljau's scheme: each point is blended with its
    successor. *)
Fixpoint step (t : Q) (l : list practice3.vec2) : list practice3.vec2 :=
  match l with
  | a :: (b :: _) as r => mix2 t a b :: step t r
  | _ => []
  end.

(** [k] levels of the scheme. *)
Fixpoint levels (t : Q) (k : nat) (l : list practice3.vec2)
  : list practice3.vec2 :=
  match k with
  | O => l
  | S k' => levels t k' (step t l)
  end.

(** Equality of points up to equality of rationals. *)
Definition veq2 (a b : practice3.vec2) : Prop :=
  practice3.x a == practice3.x b /\ practice3.y a == practice3.y b.

(** A control polygon with three points. *)
Definition example_polygon : list practice3.vertex :=
  [ practice3.Vertex (practice3.Vec2 0 0) 0 [];
    practice3.Vertex (practice3.Vec2 1 2) 0 [];
    practice3.Vertex (practice3.Vec2 3 0) 0 [] ].

(** ** mesh_utils: fill_normals *)

Section FillNormals.

(** [glm::normalize], which needs a square root, is taken as given. *)
Variable normalize : vec3 -> vec3.

(** [vertices[i].normal += n], for an index in range. *)
Definition add_normal (n : vec3) (i : nat) (vs : list mesh_utils.vertex)
  : list mesh_utils.vertex :=
  match nth_error vs i with
  | Some v =>
      upd i (mesh_utils.Vertex (mesh_utils.position v)
                               (vplus (mesh_utils.normal v) n)) vs
  | None => vs
  end.

(** The loop over the triangles, [for (i = 0; i < indices.size(); i += 3)].
    It reads [indices[i + 1]] and [indices[i + 2]] without a check, and
    [vertices[...]] without a check. *)
Fixpoint accumulate (indices : list nat) (vs : list mesh_utils.vertex)
  : result (list mesh_utils.vertex) :=
  match indices with
  | [] => Value vs
  | i0 :: i1 :: i2 :: rest =>
      match nth_error vs i0, nth_error vs i1, nth_error vs i2 with
      | Some v0, Some v1, Some v2 =>
          let n := cross (sub (mesh_utils.position v1) (mesh_utils.position v0))
                         (sub (mesh_utils.position v2) (mesh_utils.position v0)) in
          accumulate rest (add_normal n i2 (add_normal n i1 (add_normal n i0 vs)))
      | _, _, _ => OutOfBounds
      end
  | _ => OutOfBounds
  end.

(** [fill_normals(vertices, indices)]: the vertices as the call leaves
    them. *)
Definition fill_normals (vertices : list mesh_utils.vertex)
  (indices : list nat) : result (list mesh_utils.vertex) :=
  let vertices :=
    map (fun v => mesh_utils.Vertex (mesh_utils.position v) zero) vertices in
  match accumulate indices vertices with
  | Value vertices =>
      Value (map (fun v => mesh_utils.Vertex (mesh_utils.position v)
                             (normalize (mesh_utils.normal v)))
                 vertices)
  | other => other
  end.

End FillNormals.

(** The indices come in triples and each one names a vertex. *)
Definition well_indexed (count : nat) (indices : list nat) : Prop :=
  (exists k, length indices = (3 * k)%nat) /\
  (forall i, In i indices -> (i < count)%nat).

(** The two faces of the example triangle. *)
Definition example_indices : list nat := [0; 1; 2; 2; 1; 0]%nat.

(** The example mesh with other normals. *)
Definition example_mesh_lit : list mesh_utils.vertex :=
  [ mesh_utils.Vertex (Vec3 1 0 (-2)) (Vec3 0 0 1);
    mesh_utils.Vertex (Vec3 0 3 1) (Vec3 0 1 0);
    mesh_utils.Vertex (Vec3 (-1) 2 0) (Vec3 1 0 0) ].

(** The cross products that the triangles of [indices] contribute to the
    vertex number [k], one for each corner of a triangle that is [k], in
    the order of the triangles. *)
Fixpoint contributions (ps : list vec3) (indices : list nat) (k : nat)
  : list vec3 :=
  match indices with
  | i0 :: i1 :: i2 :: rest =>
      let n := cross (sub (nth i1 ps zero) (nth i0 ps zero))
                     (sub (nth i2 ps zero) (nth i0 ps zero)) in
      (if Nat.eqb i0 k then [n] else []) ++
      (if Nat.eqb i1 k then [n] else []) ++
      (if Nat.eqb i2 k then [n] else []) ++
      contributions ps rest k
  | _ => []
  end.

(** * Properties *)

(** ** Comparisons *)

Lemma Qle_bool_false (p q : Q) : Qle_bool p q = false <-> q < p.
Proof.
  split; intro E.
  - apply Qnot_le_lt. intro L. apply Qle_bool_iff in L. congruence.
  - destruct (Qle_bool p q) eqn:L; [|reflexivity].
    apply Qle_bool_iff in L. exfalso. apply (Qlt_not_le _ _ E L).
Qed.

Lemma fle_Fin (p q : Q) : fle (Fin p) (Fin q) = true <-> p <= q.
Proof. simpl. apply Qle_bool_iff. Qed.

Lemma std_min_Fin (a v : Q) :
  std_min (Fin a) (Fin v) = Fin (if Qle_bool a v then a else v).
Proof. unfold std_min; simpl. destruct (Qle_bool a v); reflexivity. Qed.

Lemma std_max_Fin (a v : Q) :
  std_max (Fin a) (Fin v) = Fin (if Qle_bool v a then a else v).
Proof. unfold std_max; simpl. destruct (Qle_bool v a); reflexivity. Qed.

(** ** project *)

Lemma project_loop_Fin (ps : list vec3) (n : vec3) :
  forall m0 M0 : Q,
  exists m M : Q,
    project_loop ps n (Fin m0) (Fin M0) = (Fin m, Fin M) /\
    is_min m (m0 :: dots ps n) /\ is_max M (M0 :: dots ps n).
Proof.
  induction ps as [|p ps IH]; intros m0 M0.
  - exists m0, M0. repeat split; simpl; auto.
    + intros v [<-|[]]. apply Qle_refl.
    + intros v [<-|[]]. apply Qle_refl.
  - cbn [project_loop]. rewrite std_min_Fin, std_max_Fin.
    set (v := dot p n).
    destruct (IH (if Qle_bool m0 v then m0 else v)
                 (if Qle_bool v M0 then M0 else v))
      as (m & M & E & [Im Lm] & [IM LM]).
    exists m, M. split; [exact E|]. clear E IH.
    change (dots (p :: ps) n) with (v :: dots ps n).
    split; split.
    + destruct Im as [<-|Im]; [|right; right; exact Im].
      destruct (Qle_bool m0 v); [left|right; left]; reflexivity.
    + assert (L0 : m <= (if Qle_bool m0 v then m0 else v))
        by (apply Lm; left; reflexivity).
      intros u [<-|[<-|Iu]]; [| |apply Lm; right; exact Iu].
      * destruct (Qle_bool m0 v) eqn:C; [exact L0|].
        apply Qle_bool_false in C. apply Qlt_le_weak in C.
        apply (Qle_trans _ _ _ L0 C).
      * destruct (Qle_bool m0 v) eqn:C; [|exact L0].
        apply Qle_bool_iff in C. apply (Qle_trans _ _ _ L0 C).
    + destruct IM as [<-|IM]; [|right; right; exact IM].
      destruct (Qle_bool v M0); [left|right; left]; reflexivity.
    + assert (L0 : (if Qle_bool v M0 then M0 else v) <= M)
        by (apply LM; left; reflexivity).
      intros u [<-|[<-|Iu]]; [| |apply LM; right; exact Iu].
      * destruct (Qle_bool v M0) eqn:C; [exact L0|].
        apply Qle_bool_false in C. apply Qlt_le_weak in C.
        apply (Qle_trans _ _ _ C L0).
      * destruct (Qle_bool v M0) eqn:C; [|exact L0].
        apply Qle_bool_iff in C. apply (Qle_trans _ _ _ C L0).
Qed.

(** On a non-empty vertex list the loop ends with the least and the
    greatest dot product. *)
Lemma project_loop_nonempty (p : vec3) (ps : list vec3) (n : vec3) :
  exists m M : Q,
    project_loop (p :: ps) n inf (fneg inf) = (Fin m, Fin M) /\
    is_min m (dots (p :: ps) n) /\ is_max M (dots (p :: ps) n).
Proof.
  cbn [project_loop]. change (std_min inf (Fin (dot p n))) with (Fin (dot p n)).
  change (std_max (fneg inf) (Fin (dot p n))) with (Fin (dot p n)).
  destruct (project_loop_Fin ps n (dot p n) (dot p n))
    as (m & M & E & Hm & HM).
  exists m, M. auto.
Qed.

Lemma project_nonempty {T} `{Body T} (b : T) (n : vec3) :
  vertices b <> [] ->
  exists m M : Q,
    project b n = (Fin m, Fin M) /\
    is_min m (dots (vertices b) n) /\ is_max M (dots (vertices b) n).
Proof.
  unfold project. destruct (vertices b) as [|p ps]; [congruence|].
  intros _. apply project_loop_nonempty.
Qed.

Lemma project_empty {T} `{Body T} (b : T) (n : vec3) :
  vertices b = [] -> project b n = (PosInf, NegInf).
Proof. unfold project. intros ->. reflexivity. Qed.

(** ** intersect_along *)

Lemma In_dots (ps : list vec3) (n : vec3) (v : Q) :
  In v (dots ps n) <-> exists p, In p ps /\ v = dot p n.
Proof.
  unfold dots. rewrite in_map_iff. split; intros (p & A & B); exists p; auto.
Qed.

(** The test passes exactly when each body reaches the other. *)
Lemma intersect_along_iff {T1 T2} `{Body T1} `{Body T2}
  (b1 : T1) (b2 : T2) (n : vec3) :
  intersect_along b1 b2 n = true <-> reaches b1 b2 n /\ reaches b2 b1 n.
Proof.
  unfold intersect_along.
  destruct (vertices b1) as [|p1 l1] eqn:V1.
  { rewrite (project_empty b1 n V1).
    split.
    - destruct (vertices b2) as [|p2 l2] eqn:V2.
      + rewrite (project_empty b2 n V2). discriminate.
      + destruct (project_nonempty b2 n) as (m2 & M2 & E2 & _);
          [rewrite V2; discriminate|].
        rewrite E2. discriminate.
    - intros [(p & q & I & _) _]. rewrite V1 in I. destruct I. }
  destruct (project_nonempty b1 n) as (m1 & M1 & E1 & [Im1 Lm1] & [IM1 LM1]);
    [rewrite V1; discriminate|].
  destruct (vertices b2) as [|p2 l2] eqn:V2.
  { rewrite (project_empty b2 n V2), E1.
    split.
    - discriminate.
    - intros [(p & q & _ & I & _) _]. rewrite V2 in I. destruct I. }
  destruct (project_nonempty b2 n) as (m2 & M2 & E2 & [Im2 Lm2] & [IM2 LM2]);
    [rewrite V2; discriminate|].
  rewrite E1, E2, andb_true_iff, !fle_Fin. rewrite V1 in *. rewrite V2 in *.
  apply In_dots in Im1, IM1, Im2, IM2.
  destruct Im1 as (a1 & Ia1 & ->), IM1 as (A1 & IA1 & ->).
  destruct Im2 as (a2 & Ia2 & ->), IM2 as (A2 & IA2 & ->).
  unfold reaches. rewrite V1, V2.
  split.
  - intros [L1 L2]. split.
    + exists a1, A2. auto.
    + exists a2, A1. auto.
  - intros [(p & q & Ip & Iq & L) (q' & p' & Iq' & Ip' & L')]. split.
    + apply Qle_trans with (dot p n); [apply Lm1, In_dots; eauto|].
      apply Qle_trans with (dot q n); [exact L|apply LM2, In_dots; eauto].
    + apply Qle_trans with (dot q' n); [apply Lm2, In_dots; eauto|].
      apply Qle_trans with (dot p' n); [exact L'|apply LM1, In_dots; eauto].
Qed.

(** ** The loops of intersect *)

Lemma bind_assoc {A B C} (m : Run.M A) (k : A -> Run.M B) (h : B -> Run.M C) :
  Run.bind (Run.bind m k) h = Run.bind m (fun a => Run.bind (k a) h).
Proof.
  destruct m as [t [r|a]]; simpl; [reflexivity|].
  destruct (k a) as [t' [r|b]]; simpl; [reflexivity|].
  destruct (h b) as [t'' o]. rewrite app_assoc. reflexivity.
Qed.

Lemma for_each_app {A} (l1 l2 : list A) (body : A -> Run.M unit) :
  Run.for_each (l1 ++ l2) body =
  Run.bind (Run.for_each l1 body) (fun _ => Run.for_each l2 body).
Proof.
  induction l1 as [|a l1 IH]; simpl.
  - destruct (Run.for_each l2 body). reflexivity.
  - rewrite bind_assoc. destruct (body a) as [t [r|u]]; simpl; [reflexivity|].
    rewrite IH. reflexivity.
Qed.

Lemma for_each_map {A B} (f : A -> B) (l : list A) (body : B -> Run.M unit) :
  Run.for_each (map f l) body = Run.for_each l (fun a => body (f a)).
Proof.
  induction l as [|a l IH]; simpl; [reflexivity|].
  destruct (body (f a)) as [t [r|u]]; simpl; [reflexivity|].
  rewrite IH. reflexivity.
Qed.

Lemma for_each_flat_map {A B} (g : A -> list B) (l : list A)
  (body : B -> Run.M unit) :
  Run.for_each l (fun a => Run.for_each (g a) body) =
  Run.for_each (flat_map g l) body.
Proof.
  induction l as [|a l IH]; simpl; [reflexivity|].
  rewrite for_each_app, IH. reflexivity.
Qed.

Lemma tested_app (t : vec3 -> bool) (l1 l2 : list vec3) :
  tested t (l1 ++ l2) =
  if forallb t l1 then l1 ++ tested t l2 else tested t l1.
Proof.
  induction l1 as [|n l1 IH]; simpl; [reflexivity|].
  destruct (t n); simpl; [|reflexivity].
  rewrite IH. destruct (forallb t l1); reflexivity.
Qed.

Section IntersectLoops.

Context {Body1 Body2 : Type} `{Body Body1} `{Body Body2}.
Variables (b1 : Body1) (b2 : Body2).

Lemma for_each_check_axis (ns : list vec3) :
  Run.for_each ns (check_axis b1 b2) =
  (tested (intersect_along b1 b2) ns,
   if forallb (intersect_along b1 b2) ns then inr tt else inl false).
Proof.
  induction ns as [|n ns IH]; simpl; [reflexivity|].
  unfold check_axis at 1. unfold Run.probe. simpl.
  destruct (intersect_along b1 b2 n); simpl; [|reflexivity].
  rewrite IH. reflexivity.
Qed.

(** The three loops are one loop over [sat_axes]. *)
Lemma intersect_body_axes :
  intersect_body b1 b2 =
  Run.bind (Run.for_each (sat_axes b1 b2) (check_axis b1 b2))
           (fun _ => Run.return_ true).
Proof.
  unfold intersect_body, sat_axes.
  rewrite (for_each_app (face_normals b1)), bind_assoc.
  destruct (Run.for_each (face_normals b1) (check_axis b1 b2)) as [t [r|u]];
    simpl; [reflexivity|].
  rewrite (for_each_app (face_normals b2)), bind_assoc.
  destruct (Run.for_each (face_normals b2) (check_axis b1 b2)) as [t' [r|u']];
    simpl; [reflexivity|].
  rewrite <- for_each_flat_map. cbv zeta.
  replace (Run.for_each (edge_directions b1)
             (fun a => Run.for_each (map (fun eB => cross a eB) (edge_directions b2))
                         (check_axis b1 b2)))
    with (Run.for_each (edge_directions b1)
            (fun e1 => Run.for_each (edge_directions b2)
               (fun e2 => check_axis b1 b2 (cross e1 e2)))).
  - reflexivity.
  - induction (edge_directions b1) as [|e1 l IH]; simpl; [reflexivity|].
    rewrite for_each_map.
    destruct (Run.for_each (edge_directions b2) _) as [t'' [r|u'']];
      simpl; [reflexivity|].
    rewrite IH. reflexivity.
Qed.

Lemma intersect_traced_axes :
  intersect_traced b1 b2 =
  (forallb (intersect_along b1 b2) (sat_axes b1 b2),
   tested (intersect_along b1 b2) (sat_axes b1 b2)).
Proof.
  unfold intersect_traced. rewrite intersect_body_axes, for_each_check_axis.
  destruct (forallb _ _); simpl; [rewrite app_nil_r|]; reflexivity.
Qed.

Lemma intersect_forallb :
  intersect b1 b2 = forallb (intersect_along b1 b2) (sat_axes b1 b2).
Proof. unfold intersect. rewrite intersect_traced_axes. reflexivity. Qed.

Lemma intersect_true_iff :
  intersect b1 b2 = true <->
  forall n, In n (sat_axes b1 b2) -> intersect_along b1 b2 n = true.
Proof. rewrite intersect_forallb. apply forallb_forall. Qed.

End IntersectLoops.

Lemma tested_first_failure (t : vec3 -> bool) (pre post : list vec3) (n : vec3) :
  forallb t pre = true -> t n = false ->
  tested t (pre ++ n :: post) = pre ++ [n].
Proof.
  intros P F. rewrite tested_app, P. simpl. rewrite F. reflexivity.
Qed.

Lemma tested_all (t : vec3 -> bool) (ns : list vec3) :
  forallb t ns = true -> tested t ns = ns.
Proof.
  induction ns as [|n ns IH]; simpl; [reflexivity|].
  destruct (t n); simpl; [|discriminate].
  intros P. rewrite IH by exact P. reflexivity.
Qed.

(** ** Claims on project and on the order of the tests *)

(** C1.  [intersect] tests the axes in the order: the face normals of the
    first body, the face normals of the second, then the cross products
    [cross eA eB] of every edge direction of the first with every edge
    direction of the second.  Each test is
    [minA <= maxB && minB <= maxA] on the two projections.  At the first
    axis that fails the function returns [false], having tested nothing
    after it; when every axis passes it returns [true], having tested
    them all. *)
Theorem intersect_axis_order_short_circuit {T1 T2} `{Body T1} `{Body T2}
  (A : T1) (B : T2) :
  let test := intersect_along A B in
  let axes :=
    face_normals A ++ face_normals B ++
    flat_map (fun eA => map (fun eB => cross eA eB) (edge_directions B))
             (edge_directions A) in
  (forall n,
     test n = (fle (fst (project A n)) (snd (project B n)) &&
               fle (fst (project B n)) (snd (project A n)))) /\
  (forall pre n post,
     axes = pre ++ n :: post ->
     forallb test pre = true -> test n = false ->
     intersect_traced A B = (false, pre ++ [n])) /\
  (forallb test axes = true -> intersect_traced A B = (true, axes)).
Proof.
  intros test axes. change axes with (sat_axes A B).
  split; [|split].
  - intros n. unfold test, intersect_along.
    destruct (project A n), (project B n). reflexivity.
  - intros pre n post E P F. rewrite intersect_traced_axes, E.
    fold test. rewrite (tested_first_failure test pre post n P F).
    rewrite forallb_app, P. simpl. rewrite F. reflexivity.
  - intros P. rewrite intersect_traced_axes. fold test.
    rewrite P, (tested_all test _ P). reflexivity.
Qed.

Lemma intersect_axis_order_short_circuit_witness :
  intersect_traced unit_box far_box = (false, [] ++ [Vec3 1 0 0]) /\
  intersect_traced unit_box near_box =
    (true,
     face_normals unit_box ++ face_normals near_box ++
     flat_map (fun eA => map (fun eB => cross eA eB) (edge_directions near_box))
              (edge_directions unit_box)).
Proof.
  split.
  - apply (proj1 (proj2 (intersect_axis_order_short_circuit unit_box far_box))
             [] (Vec3 1 0 0) (tl (sat_axes unit_box far_box))).
    + reflexivity.
    + reflexivity.
    + vm_compute. reflexivity.
  - apply (proj2 (proj2 (intersect_axis_order_short_circuit unit_box near_box))).
    vm_compute. reflexivity.
Defined.



(** C7, as the specification states it, fails: on a body without vertices
    [project] returns the pair (+inf, -inf); it does not fail. *)
Lemma project_empty_does_not_fail :
  project_call empty_shape (Vec3 1 0 0) = Returns (PosInf, NegInf) /\
  project_call empty_shape (Vec3 1 0 0) <> Fails.
Proof. split; [reflexivity|discriminate]. Qed.

(** C7, amended.  [project] does not check that there is a vertex: on a
    body without vertices the call returns, and its result is the pair
    (+inf, -inf), the initial values of the two accumulators. *)
Theorem project_empty_returns_infinities {T} `{Body T} (b : T) (n : vec3) :
  vertices b = [] ->
  project_call b n = Returns (inf, fneg inf).
Proof. intros E. unfold project_call. rewrite (project_empty b n E). reflexivity. Qed.

Lemma project_empty_returns_infinities_witness :
  project_call empty_shape (Vec3 0 1 0) = Returns (inf, fneg inf).
Proof. apply (project_empty_returns_infinities empty_shape (Vec3 0 1 0)). reflexivity. Defined.

(** ** Symmetry, own intersection, zero axes *)

Lemma dot_neg (p n n' : vec3) : veq n' (neg n) -> dot p n' == - dot p n.
Proof.
  intros (Hx & Hy & Hz). unfold dot. simpl in Hx, Hy, Hz.
  rewrite Hx, Hy, Hz. ring.
Qed.

Lemma dot_zero (p n : vec3) : veq n zero -> dot p n == 0.
Proof.
  intros (Hx & Hy & Hz). unfold dot. simpl in Hx, Hy, Hz.
  rewrite Hx, Hy, Hz. ring.
Qed.

Lemma cross_anticomm (a b : vec3) : veq (cross b a) (neg (cross a b)).
Proof. unfold veq, cross, neg; simpl. repeat split; ring. Qed.

Lemma cross_parallel (e1 e2 : vec3) : parallel e1 e2 -> veq (cross e1 e2) zero.
Proof.
  intros [k [(Hx & Hy & Hz)|(Hx & Hy & Hz)]];
    unfold veq, cross, zero; simpl in *;
    rewrite Hx, Hy, Hz; repeat split; ring.
Qed.

Section Along.

Context {T1 T2 : Type} `{Body T1} `{Body T2}.
Variables (A : T1) (B : T2).

Lemma reaches_neg (n n' : vec3) :
  veq n' (neg n) -> reaches A B n' <-> reaches B A n.
Proof.
  intros E. unfold reaches.
  split; intros (p & q & Ip & Iq & L); exists q, p; repeat split; auto.
  - pose proof (dot_neg p n n' E). pose proof (dot_neg q n n' E). lra.
  - pose proof (dot_neg p n n' E). pose proof (dot_neg q n n' E). lra.
Qed.

Lemma intersect_along_swap (n : vec3) :
  intersect_along A B n = intersect_along B A n.
Proof.
  apply eq_true_iff_eq. rewrite !intersect_along_iff. tauto.
Qed.

Lemma intersect_along_neg (n n' : vec3) :
  veq n' (neg n) -> intersect_along A B n' = intersect_along A B n.
Proof.
  intros E. apply eq_true_iff_eq. rewrite !intersect_along_iff.
  pose proof (reaches_neg n n' E).
  assert (reaches B A n' <-> reaches A B n).
  { unfold reaches.
    split; intros (p & q & Ip & Iq & L); exists q, p; repeat split; auto.
    - pose proof (dot_neg p n n' E). pose proof (dot_neg q n n' E). lra.
    - pose proof (dot_neg p n n' E). pose proof (dot_neg q n n' E). lra. }
  tauto.
Qed.

(** Along a zero axis the test passes as soon as both bodies have a
    vertex. *)
Lemma intersect_along_zero (n : vec3) :
  vertices A <> [] -> vertices B <> [] -> veq n zero ->
  intersect_along A B n = true.
Proof.
  intros NA NB Z. apply intersect_along_iff.
  destruct (vertices A) as [|p lA] eqn:VA; [congruence|].
  destruct (vertices B) as [|q lB] eqn:VB; [congruence|].
  pose proof (dot_zero p n Z). pose proof (dot_zero q n Z).
  split; [exists p, q|exists q, p]; rewrite ?VA, ?VB;
    (repeat split; [left; reflexivity|left; reflexivity|lra]).
Qed.

End Along.

Lemma project_zero {T} `{Body T} (b : T) (n : vec3) :
  vertices b <> [] -> veq n zero -> collapsed (project b n).
Proof.
  intros NE Z.
  destruct (project_nonempty b n NE) as (m & M & E & [Im _] & [IM _]).
  exists m, M. split; [exact E|].
  apply In_dots in Im, IM.
  destruct Im as (p & _ & ->), IM as (q & _ & ->).
  split; apply dot_zero; exact Z.
Qed.

Lemma intersect_swap_true {T1 T2} `{Body T1} `{Body T2} (A : T1) (B : T2) :
  intersect A B = true -> intersect B A = true.
Proof.
  rewrite !intersect_true_iff. intros HAB n In.
  unfold sat_axes in In. rewrite !in_app_iff in In.
  rewrite <- intersect_along_swap.
  destruct In as [In|[In|In]].
  - apply HAB. unfold sat_axes. rewrite !in_app_iff. auto.
  - apply HAB. unfold sat_axes. rewrite !in_app_iff. auto.
  - apply in_flat_map in In. destruct In as (eB & IeB & In).
    apply in_map_iff in In. destruct In as (eA & <- & IeA).
    rewrite (intersect_along_neg A B (cross eA eB) (cross eB eA)
               (cross_anticomm eA eB)).
    apply HAB. unfold sat_axes. rewrite !in_app_iff. right; right.
    apply in_flat_map. exists eA. split; [exact IeA|].
    apply in_map_iff. exists eB. auto.
Qed.

(** C3.  Swapping the two bodies does not change the result of
    [intersect]. *)
Theorem intersect_symmetric {T1 T2} `{Body T1} `{Body T2} (A : T1) (B : T2) :
  intersect A B = intersect B A.
Proof.
  apply eq_true_iff_eq. split; apply intersect_swap_true.
Qed.





(** ** The axis-aligned box *)

Lemma make_aabb_vertices (min max : vec3) :
  vertices (make_aabb min max) =
  [ Vec3 (x min) (y min) (z min); Vec3 (x max) (y min) (z min);
    Vec3 (x min) (y max) (z min); Vec3 (x max) (y max) (z min);
    Vec3 (x min) (y min) (z max); Vec3 (x max) (y min) (z max);
    Vec3 (x min) (y max) (z max); Vec3 (x max) (y max) (z max) ].
Proof. reflexivity. Qed.

(** C8.  The box built from [min] and [max] has eight vertices, vertex
    [i] taking its x from [max] when bit 0 of [i] is set and from [min]
    otherwise, its y by bit 1 and its z by bit 2, so that every
    combination of the components occurs; its face normals are the three
    unit axes, and so are its edge directions. *)
Theorem make_aabb_contract (min max : vec3) :
  let box := make_aabb min max in
  length (vertices box) = 8%nat /\
  vertices box =
    map (fun i : N =>
           Vec3 (if N.testbit i 0 then x max else x min)
                (if N.testbit i 1 then y max else y min)
                (if N.testbit i 2 then z max else z min))
        [0; 1; 2; 3; 4; 5; 6; 7]%N /\
  (forall bx by_ bz : bool,
     In (Vec3 (if bx then x max else x min)
              (if by_ then y max else y min)
              (if bz then z max else z min))
        (vertices box)) /\
  face_normals box = [ Vec3 1 0 0; Vec3 0 1 0; Vec3 0 0 1 ] /\
  edge_directions box = [ Vec3 1 0 0; Vec3 0 1 0; Vec3 0 0 1 ].
Proof.
  intros box. unfold box. rewrite make_aabb_vertices.
  split; [reflexivity|]. split; [reflexivity|]. split; [|split; reflexivity].
  intros [] [] []; simpl; tauto.
Qed.

Lemma make_aabb_bounds (min max p : vec3) :
  well_formed min max -> In p (vertices (make_aabb min max)) ->
  (x min <= x p <= x max) /\ (y min <= y p <= y max) /\
  (z min <= z p <= z max).
Proof.
  intros (Wx & Wy & Wz). rewrite make_aabb_vertices. simpl.
  intros I. repeat (destruct I as [<-|I]; [simpl; lra|]). destruct I.
Qed.

Lemma min_corner_In (min max : vec3) :
  In (Vec3 (x min) (y min) (z min)) (vertices (make_aabb min max)).
Proof. rewrite make_aabb_vertices. left. reflexivity. Qed.

Lemma max_corner_In (min max : vec3) :
  In (Vec3 (x max) (y max) (z max)) (vertices (make_aabb min max)).
Proof. rewrite make_aabb_vertices. do 7 right. left. reflexivity. Qed.

(** The nine cross products of the edge directions of two boxes: three
    zero vectors, and the unit axes up to sign. *)
Lemma aabb_cross_axes :
  flat_map (fun eA => map (fun eB => cross eA eB) aabb_edge_directions)
           aabb_edge_directions =
  [ Vec3 0 0 0;    Vec3 0 0 1;    Vec3 0 (-1) 0;
    Vec3 0 0 (-1); Vec3 0 0 0;    Vec3 1 0 0;
    Vec3 0 1 0;    Vec3 (-1) 0 0; Vec3 0 0 0 ].
Proof. reflexivity. Qed.

(** Prove [reaches] from two given vertices. *)
Ltac reach_by p q :=
  exists p, q;
  repeat split; [assumption|assumption|unfold dot; simpl; lra].

Section Boxes.

Variables minA maxA minB maxB : vec3.
Hypothesis WA : well_formed minA maxA.
Hypothesis WB : well_formed minB maxB.

Let A := make_aabb minA maxA.
Let B := make_aabb minB maxB.

(** When the three face normals pass, the boxes overlap on each world
    axis. *)
Lemma aabb_face_normals_overlap :
  (forall n, In n aabb_face_normals -> intersect_along A B n = true) ->
  overlap_1d (x minA) (x maxA) (x minB) (x maxB) /\
  overlap_1d (y minA) (y maxA) (y minB) (y maxB) /\
  overlap_1d (z minA) (z maxA) (z minB) (z maxB).
Proof.
  intros Hall. unfold overlap_1d.
  assert (Hx := Hall (Vec3 1 0 0)). assert (Hy := Hall (Vec3 0 1 0)).
  assert (Hz := Hall (Vec3 0 0 1)). clear Hall.
  rewrite intersect_along_iff in Hx, Hy, Hz.
  destruct Hx as [(p1 & q1 & Ip1 & Iq1 & L1) (q2 & p2 & Iq2 & Ip2 & L2)];
    [simpl; auto|].
  destruct Hy as [(p3 & q3 & Ip3 & Iq3 & L3) (q4 & p4 & Iq4 & Ip4 & L4)];
    [simpl; auto|].
  destruct Hz as [(p5 & q5 & Ip5 & Iq5 & L5) (q6 & p6 & Iq6 & Ip6 & L6)];
    [simpl; auto|].
  unfold dot in *. simpl in L1, L2, L3, L4, L5, L6.
  pose proof (make_aabb_bounds _ _ _ WA Ip1).
  pose proof (make_aabb_bounds _ _ _ WA Ip2).
  pose proof (make_aabb_bounds _ _ _ WA Ip3).
  pose proof (make_aabb_bounds _ _ _ WA Ip4).
  pose proof (make_aabb_bounds _ _ _ WA Ip5).
  pose proof (make_aabb_bounds _ _ _ WA Ip6).
  pose proof (make_aabb_bounds _ _ _ WB Iq1).
  pose proof (make_aabb_bounds _ _ _ WB Iq2).
  pose proof (make_aabb_bounds _ _ _ WB Iq3).
  pose proof (make_aabb_bounds _ _ _ WB Iq4).
  pose proof (make_aabb_bounds _ _ _ WB Iq5).
  pose proof (make_aabb_bounds _ _ _ WB Iq6).
  repeat split; lra.
Qed.

Lemma intersect_aabb_iff :
  intersect A B = true <->
  overlap_1d (x minA) (x maxA) (x minB) (x maxB) /\
  overlap_1d (y minA) (y maxA) (y minB) (y maxB) /\
  overlap_1d (z minA) (z maxA) (z minB) (z maxB).
Proof.
  rewrite intersect_true_iff. split.
  - intros Hall. apply aabb_face_normals_overlap.
    intros n In. apply Hall. unfold sat_axes. apply in_or_app. left. exact In.
  - unfold overlap_1d. intros ((X1 & X2) & (Y1 & Y2) & (Z1 & Z2)) n In.
    apply intersect_along_iff.
    pose proof (min_corner_In minA maxA) as IlA.
    pose proof (max_corner_In minA maxA) as IhA.
    pose proof (min_corner_In minB maxB) as IlB.
    pose proof (max_corner_In minB maxB) as IhB.
    unfold sat_axes in In. cbn [face_normals edge_directions aabb_Body] in In.
    rewrite aabb_cross_axes in In. unfold aabb_face_normals in In.
    destruct WA as (Ax & Ay & Az). destruct WB as (Bx & By & Bz).
    simpl in In.
    repeat (destruct In as [<-|In];
      [split;
       first
         [ reach_by (Vec3 (x minA) (y minA) (z minA))
                    (Vec3 (x maxB) (y maxB) (z maxB))
         | reach_by (Vec3 (x maxA) (y maxA) (z maxA))
                    (Vec3 (x minB) (y minB) (z minB))
         | reach_by (Vec3 (x minB) (y minB) (z minB))
                    (Vec3 (x maxA) (y maxA) (z maxA))
         | reach_by (Vec3 (x maxB) (y maxB) (z maxB))
                    (Vec3 (x minA) (y minA) (z minA)) ]
      |]).
    destruct In.
Qed.

End Boxes.

Lemma naive_aabb_overlap_iff (minA maxA minB maxB : vec3) :
  naive_aabb_overlap minA maxA minB maxB = true <->
  overlap_1d (x minA) (x maxA) (x minB) (x maxB) /\
  overlap_1d (y minA) (y maxA) (y minB) (y maxB) /\
  overlap_1d (z minA) (z maxA) (z minB) (z maxB).
Proof.
  unfold naive_aabb_overlap, overlap_1d.
  rewrite !andb_true_iff, !Qle_bool_iff. tauto.
Qed.

(** C4.  On two boxes [intersect] is the closed-interval overlap test per
    world axis: boxes whose ranges are disjoint along some axis do not
    intersect; boxes that share the face [A.max.x == B.min.x] and overlap
    along y and z intersect; and the two literal examples evaluate to
    [false] and to [true]. *)
Theorem aabb_closed_interval_semantics :
  (forall minA maxA minB maxB,
     well_formed minA maxA -> well_formed minB maxB ->
     (x maxA < x minB \/ x maxB < x minA \/
      y maxA < y minB \/ y maxB < y minA \/
      z maxA < z minB \/ z maxB < z minA) ->
     intersect (make_aabb minA maxA) (make_aabb minB maxB) = false) /\
  (forall minA maxA minB maxB,
     well_formed minA maxA -> well_formed minB maxB ->
     x maxA == x minB ->
     overlap_1d (y minA) (y maxA) (y minB) (y maxB) ->
     overlap_1d (z minA) (z maxA) (z minB) (z maxB) ->
     intersect (make_aabb minA maxA) (make_aabb minB maxB) = true) /\
  intersect (make_aabb (Vec3 0 0 0) (Vec3 1 1 1))
            (make_aabb (Vec3 2 0 0) (Vec3 3 1 1)) = false /\
  intersect (make_aabb (Vec3 0 0 0) (Vec3 1 1 1))
            (make_aabb (Vec3 0.5 0 0) (Vec3 1.5 1 1)) = true.
Proof.
  split; [|split; [|split; reflexivity]].
  - intros minA maxA minB maxB WA WB Sep.
    apply not_true_is_false. intros I.
    apply (intersect_aabb_iff _ _ _ _ WA WB) in I.
    unfold overlap_1d in I. lra.
  - intros minA maxA minB maxB WA WB Touch Oy Oz.
    apply (intersect_aabb_iff _ _ _ _ WA WB).
    split; [|split; assumption].
    destruct WA as (Ax & _). destruct WB as (Bx & _).
    unfold overlap_1d. lra.
Qed.

Lemma aabb_closed_interval_semantics_witness :
  intersect (make_aabb (Vec3 0 0 0) (Vec3 1 2 3))
            (make_aabb (Vec3 0 0 4) (Vec3 1 2 5)) = false /\
  intersect (make_aabb (Vec3 0 0 0) (Vec3 1 2 3))
            (make_aabb (Vec3 1 1 1) (Vec3 2 2 2)) = true.
Proof.
  split.
  - apply (proj1 aabb_closed_interval_semantics).
    + repeat split; vm_compute; discriminate.
    + repeat split; vm_compute; discriminate.
    + do 4 right. left. reflexivity.
  - apply (proj1 (proj2 aabb_closed_interval_semantics)).
    + repeat split; vm_compute; discriminate.
    + repeat split; vm_compute; discriminate.
    + reflexivity.
    + split; vm_compute; discriminate.
    + split; vm_compute; discriminate.
Defined.

(** C10.  On two boxes the separating-axis test is the three-axis
    interval overlap test on their corner points.  The nine cross-product
    axes are three zero vectors and the unit axes up to sign, and the
    result is already decided by the three face normals. *)
Theorem intersect_aabb_is_naive_overlap (minA maxA minB maxB : vec3) :
  well_formed minA maxA -> well_formed minB maxB ->
  let A := make_aabb minA maxA in
  let B := make_aabb minB maxB in
  intersect A B = naive_aabb_overlap minA maxA minB maxB /\
  flat_map (fun eA => map (fun eB => cross eA eB) (edge_directions B))
           (edge_directions A) =
    [ Vec3 0 0 0;    Vec3 0 0 1;    Vec3 0 (-1) 0;
      Vec3 0 0 (-1); Vec3 0 0 0;    Vec3 1 0 0;
      Vec3 0 1 0;    Vec3 (-1) 0 0; Vec3 0 0 0 ] /\
  intersect A B = forallb (intersect_along A B) (face_normals A).
Proof.
  intros WA WB A B.
  assert (E : intersect A B = naive_aabb_overlap minA maxA minB maxB).
  { apply eq_true_iff_eq.
    rewrite naive_aabb_overlap_iff. apply intersect_aabb_iff; assumption. }
  split; [exact E|]. split; [reflexivity|].
  apply eq_true_iff_eq. split.
  - rewrite intersect_forallb, !forallb_forall. intros Hall n In.
    apply Hall. unfold sat_axes. apply in_or_app. left. exact In.
  - intros F. apply (intersect_aabb_iff _ _ _ _ WA WB).
    apply (aabb_face_normals_overlap _ _ _ _ WA WB).
    apply forallb_forall. exact F.
Qed.

Lemma intersect_aabb_is_naive_overlap_witness :
  let A := make_aabb (Vec3 0 0 0) (Vec3 1 1 1) in
  let B := make_aabb (Vec3 0.5 0 0) (Vec3 1.5 1 1) in
  intersect A B =
    naive_aabb_overlap (Vec3 0 0 0) (Vec3 1 1 1) (Vec3 0.5 0 0) (Vec3 1.5 1 1) /\
  flat_map (fun eA => map (fun eB => cross eA eB) (edge_directions B))
           (edge_directions A) =
    [ Vec3 0 0 0;    Vec3 0 0 1;    Vec3 0 (-1) 0;
      Vec3 0 0 (-1); Vec3 0 0 0;    Vec3 1 0 0;
      Vec3 0 1 0;    Vec3 (-1) 0 0; Vec3 0 0 0 ] /\
  intersect A B = forallb (intersect_along A B) (face_normals A).
Proof.
  apply (intersect_aabb_is_naive_overlap
           (Vec3 0 0 0) (Vec3 1 1 1) (Vec3 0.5 0 0) (Vec3 1.5 1 1)).
  - repeat split; vm_compute; discriminate.
  - repeat split; vm_compute; discriminate.
Defined.

(** ** The frustum *)

(** The cofactor matrix is the adjugate: multiplied by the matrix it gives
    the determinant times the identity. *)
Lemma cofactors_adjugate_r (m : mat4) (v : vec4) :
  veq4 (mul_mv m (mul_mv (cofactors m) v)) (vscale v (determinant m)).
Proof.
  destruct m as [[a00 a01 a02 a03] [a10 a11 a12 a13]
                 [a20 a21 a22 a23] [a30 a31 a32 a33]].
  destruct v as [vx vy vz vw].
  cbv [veq4 mul_mv determinant cofactors vmul vadd vsub vscale
       x4 y4 z4 w4 c0 c1 c2 c3].
  repeat split; ring.
Qed.

Lemma cofactors_adjugate_l (m : mat4) (v : vec4) :
  veq4 (mul_mv (cofactors m) (mul_mv m v)) (vscale v (determinant m)).
Proof.
  destruct m as [[a00 a01 a02 a03] [a10 a11 a12 a13]
                 [a20 a21 a22 a23] [a30 a31 a32 a33]].
  destruct v as [vx vy vz vw].
  cbv [veq4 mul_mv determinant cofactors vmul vadd vsub vscale
       x4 y4 z4 w4 c0 c1 c2 c3].
  repeat split; ring.
Qed.

(** From [A : lhs == c * d] and [D : ~ d == 0], prove that [lhs] scaled by
    [1 / d] is [c]. *)
Ltac divide_out c d A D :=
  transitivity ((c * d) * (1 / d)); [rewrite <- A; ring|field; exact D].

(** [glm::inverse] is a right inverse whenever the determinant is not
    zero. *)
Lemma inverse_r (m : mat4) (v : vec4) :
  ~ determinant m == 0 -> veq4 (mul_mv m (mul_mv (inverse m) v)) v.
Proof.
  intros D. pose proof (cofactors_adjugate_r m v) as A.
  unfold inverse.
  set (d := determinant m) in *. set (K := cofactors m) in *.
  clearbody d K.
  destruct m as [[a00 a01 a02 a03] [a10 a11 a12 a13]
                 [a20 a21 a22 a23] [a30 a31 a32 a33]].
  destruct K as [[k00 k01 k02 k03] [k10 k11 k12 k13]
                 [k20 k21 k22 k23] [k30 k31 k32 k33]].
  destruct v as [vx vy vz vw].
  cbv [veq4 mul_mv vadd vscale x4 y4 z4 w4 c0 c1 c2 c3] in *.
  destruct A as (A1 & A2 & A3 & A4).
  repeat split.
  - divide_out vx d A1 D.
  - divide_out vy d A2 D.
  - divide_out vz d A3 D.
  - divide_out vw d A4 D.
Qed.

(** ... and a left inverse. *)
Lemma inverse_l (m : mat4) (v : vec4) :
  ~ determinant m == 0 -> veq4 (mul_mv (inverse m) (mul_mv m v)) v.
Proof.
  intros D. pose proof (cofactors_adjugate_l m v) as A.
  unfold inverse.
  set (d := determinant m) in *. set (K := cofactors m) in *.
  clearbody d K.
  destruct m as [[a00 a01 a02 a03] [a10 a11 a12 a13]
                 [a20 a21 a22 a23] [a30 a31 a32 a33]].
  destruct K as [[k00 k01 k02 k03] [k10 k11 k12 k13]
                 [k20 k21 k22 k23] [k30 k31 k32 k33]].
  destruct v as [vx vy vz vw].
  cbv [veq4 mul_mv vadd vscale x4 y4 z4 w4 c0 c1 c2 c3] in *.
  destruct A as (A1 & A2 & A3 & A4).
  repeat split.
  - divide_out vx d A1 D.
  - divide_out vy d A2 D.
  - divide_out vz d A3 D.
  - divide_out vw d A4 D.
Qed.

Lemma make_frustum_vertices (vp : mat4) :
  vertices (make_frustum vp) =
  map (frustum_vertex (inverse vp)) [0; 1; 2; 3; 4; 5; 6; 7]%N.
Proof. reflexivity. Qed.



(** * Further properties of the intersection test *)

(** One half of the test of [intersect_along]: [min1 <= max2]. *)
Lemma fle_project_reaches {T1 T2} `{Body T1} `{Body T2}
  (b1 : T1) (b2 : T2) (n : vec3) :
  fle (fst (project b1 n)) (snd (project b2 n)) = true <-> reaches b1 b2 n.
Proof.
  destruct (vertices b1) as [|p1 l1] eqn:V1.
  { rewrite (project_empty b1 n V1). split.
    - destruct (vertices b2) as [|p2 l2] eqn:V2.
      + rewrite (project_empty b2 n V2). discriminate.
      + destruct (project_nonempty b2 n) as (m2 & M2 & E2 & _);
          [rewrite V2; discriminate|].
        rewrite E2. discriminate.
    - intros (p & q & I & _). rewrite V1 in I. destruct I. }
  destruct (project_nonempty b1 n) as (m1 & M1 & E1 & [Im1 Lm1] & _);
    [rewrite V1; discriminate|].
  destruct (vertices b2) as [|p2 l2] eqn:V2.
  { rewrite (project_empty b2 n V2), E1. split.
    - discriminate.
    - intros (p & q & _ & I & _). rewrite V2 in I. destruct I. }
  destruct (project_nonempty b2 n) as (m2 & M2 & E2 & _ & [IM2 LM2]);
    [rewrite V2; discriminate|].
  rewrite E1, E2. cbn [fst snd]. rewrite fle_Fin.
  rewrite V1 in *. rewrite V2 in *.
  apply In_dots in Im1, IM2.
  destruct Im1 as (a1 & Ia1 & ->), IM2 as (A2 & IA2 & ->).
  unfold reaches. rewrite V1, V2. split.
  - intros L. exists a1, A2. auto.
  - intros (p & q & Ip & Iq & L).
    apply Qle_trans with (dot p n); [apply Lm1, In_dots; eauto|].
    apply Qle_trans with (dot q n); [exact L|apply LM2, In_dots; eauto].
Qed.

Lemma not_reaches_iff {T1 T2} `{Body T1} `{Body T2}
  (b1 : T1) (b2 : T2) (n : vec3) :
  ~ reaches b1 b2 n <->
  forall p q, In p (vertices b1) -> In q (vertices b2) -> dot q n < dot p n.
Proof.
  unfold reaches. split.
  - intros N p q Ip Iq. apply Qnot_le_lt. intros L. apply N. eauto.
  - intros A (p & q & Ip & Iq & L).
    apply (Qlt_not_le _ _ (A p q Ip Iq) L).
Qed.

Lemma intersect_along_false_iff {T1 T2} `{Body T1} `{Body T2}
  (b1 : T1) (b2 : T2) (n : vec3) :
  intersect_along b1 b2 n = false <-> separated_on b1 b2 n.
Proof.
  assert (E : intersect_along b1 b2 n =
              fle (fst (project b1 n)) (snd (project b2 n)) &&
              fle (fst (project b2 n)) (snd (project b1 n))).
  { unfold intersect_along. destruct (project b1 n), (project b2 n).
    reflexivity. }
  rewrite E, andb_false_iff. unfold separated_on.
  pose proof (fle_project_reaches b1 b2 n) as R12.
  pose proof (fle_project_reaches b2 b1 n) as R21.
  pose proof (not_reaches_iff b1 b2 n) as N12.
  pose proof (not_reaches_iff b2 b1 n) as N21.
  split.
  - intros [F|F].
    + right. apply N12. intros R. apply R12 in R. congruence.
    + left. intros p q Ip Iq. apply (proj1 N21); [|exact Iq|exact Ip].
      intros R. apply R21 in R. congruence.
  - intros [S|S].
    + right. apply not_true_is_false. intros T. apply R21 in T.
      apply N21 in T; [exact T|]. intros q p Iq Ip. apply S; assumption.
    + left. apply not_true_is_false. intros T. apply R12 in T.
      apply N12 in T; [exact T|]. exact S.
Qed.

Lemma forallb_false_iff {A} (f : A -> bool) (l : list A) :
  forallb f l = false <-> exists a, In a l /\ f a = false.
Proof.
  induction l as [|a l IH]; simpl.
  - split; [discriminate|intros (a & [] & _)].
  - rewrite andb_false_iff, IH. split.
    + intros [F|(b & Ib & F)]; eauto.
    + intros (b & [<-|Ib] & F); eauto.
Qed.


(** ** Bodies whose convex hulls meet *)

Lemma dot_veq_l (c c' n : vec3) : veq c c' -> dot c n == dot c' n.
Proof.
  intros (Hx & Hy & Hz). unfold dot. rewrite Hx, Hy, Hz. reflexivity.
Qed.

Lemma dot_combination_lower (n : vec3) (m : Q) (ps : list vec3) :
  (forall p, In p ps -> m <= dot p n) ->
  forall ws, length ws = length ps -> (forall w, In w ws -> 0 <= w) ->
  m * total ws <= dot (combination ws ps) n.
Proof.
  induction ps as [|p ps IH]; intros L ws E W.
  - destruct ws; [|discriminate]. simpl. unfold dot. simpl. lra.
  - destruct ws as [|w ws]; [discriminate|].
    assert (I := IH (fun q Iq => L q (or_intror Iq)) ws
                   (eq_add_S _ _ E) (fun u Iu => W u (or_intror Iu))).
    assert (Lp := L p (or_introl eq_refl)).
    assert (Ww := W w (or_introl eq_refl)).
    cbn [combination total]. unfold dot in *. simpl. nra.
Qed.

Lemma dot_combination_upper (n : vec3) (m : Q) (ps : list vec3) :
  (forall p, In p ps -> dot p n <= m) ->
  forall ws, length ws = length ps -> (forall w, In w ws -> 0 <= w) ->
  dot (combination ws ps) n <= m * total ws.
Proof.
  induction ps as [|p ps IH]; intros L ws E W.
  - destruct ws; [|discriminate]. simpl. unfold dot. simpl. lra.
  - destruct ws as [|w ws]; [discriminate|].
    assert (I := IH (fun q Iq => L q (or_intror Iq)) ws
                   (eq_add_S _ _ E) (fun u Iu => W u (or_intror Iu))).
    assert (Lp := L p (or_introl eq_refl)).
    assert (Ww := W w (or_introl eq_refl)).
    cbn [combination total]. unfold dot in *. simpl. nra.
Qed.

(** A point of the hull projects between the least and the greatest
    vertex. *)
Lemma hull_between (ps : list vec3) (c n : vec3) :
  in_hull ps c ->
  (exists p, In p ps /\ dot p n <= dot c n) /\
  (exists q, In q ps /\ dot c n <= dot q n).
Proof.
  intros (ws & E & W & T & C).
  destruct ps as [|p0 ps].
  { destruct ws; [|discriminate]. simpl in T. lra. }
  destruct (project_loop_nonempty p0 ps n)
    as (m & M & _ & [Im Lm] & [IM LM]).
  pose proof (dot_veq_l _ _ n C) as D.
  split.
  - apply In_dots in Im. destruct Im as (p & Ip & ->).
    exists p. split; [exact Ip|].
    assert (B := dot_combination_lower n (dot p n) (p0 :: ps)
                   (fun q Iq => Lm _ (proj2 (In_dots _ _ _) (ex_intro _ q (conj Iq eq_refl))))
                   ws E W).
    rewrite T in B. lra.
  - apply In_dots in IM. destruct IM as (q & Iq & ->).
    exists q. split; [exact Iq|].
    assert (B := dot_combination_upper n (dot q n) (p0 :: ps)
                   (fun r Ir => LM _ (proj2 (In_dots _ _ _) (ex_intro _ r (conj Ir eq_refl))))
                   ws E W).
    rewrite T in B. lra.
Qed.



(** ** A body without vertices *)

Lemma intersect_along_empty_l {T1 T2} `{Body T1} `{Body T2}
  (A : T1) (B : T2) (n : vec3) :
  vertices A = [] -> intersect_along A B n = false.
Proof.
  intros E. apply not_true_is_false. intros T.
  apply intersect_along_iff in T. destruct T as [(p & _ & I & _) _].
  rewrite E in I. destruct I.
Qed.



(** ** Only the vertex set and the directions of the axes matter *)

Lemma reaches_vertices_ext {T1 T1' T2} `{Body T1} `{Body T1'} `{Body T2}
  (A : T1) (A' : T1') (B : T2) (n : vec3) :
  (forall p, In p (vertices A) <-> In p (vertices A')) ->
  (reaches A B n <-> reaches A' B n) /\ (reaches B A n <-> reaches B A' n).
Proof.
  intros E. unfold reaches. split; split.
  - intros (p & q & Ip & Iq & L). exists p, q. rewrite <- E. auto.
  - intros (p & q & Ip & Iq & L). exists p, q. rewrite E. auto.
  - intros (p & q & Ip & Iq & L). exists p, q. rewrite <- E. auto.
  - intros (p & q & Ip & Iq & L). exists p, q. rewrite E. auto.
Qed.

Lemma intersect_along_vertices_ext {T1 T1' T2} `{Body T1} `{Body T1'} `{Body T2}
  (A : T1) (A' : T1') (B : T2) (n : vec3) :
  (forall p, In p (vertices A) <-> In p (vertices A')) ->
  intersect_along A B n = intersect_along A' B n.
Proof.
  intros E. apply eq_true_iff_eq. rewrite !intersect_along_iff.
  destruct (reaches_vertices_ext A A' B n E) as [R1 R2]. tauto.
Qed.

Lemma dot_scale (p n n' : vec3) (k : Q) :
  veq n' (scale k n) -> dot p n' == k * dot p n.
Proof.
  intros (Hx & Hy & Hz). unfold dot. simpl in Hx, Hy, Hz.
  rewrite Hx, Hy, Hz. ring.
Qed.

Lemma intersect_along_same_line {T1 T2} `{Body T1} `{Body T2}
  (A : T1) (B : T2) (n n' : vec3) :
  same_line n n' -> intersect_along A B n' = intersect_along A B n.
Proof.
  intros (k & K & E). apply eq_true_iff_eq. rewrite !intersect_along_iff.
  assert (S : forall (U V : Type) (HU : Body U) (HV : Body V) (u : U) (v : V),
             0 < k -> (reaches u v n' <-> reaches u v n)).
  { intros U V HU HV u v P. unfold reaches.
    split; intros (p & q & Ip & Iq & L); exists p, q; repeat split; auto;
      pose proof (dot_scale p n n' k E); pose proof (dot_scale q n n' k E);
      nra. }
  assert (O : forall (U V : Type) (HU : Body U) (HV : Body V) (u : U) (v : V),
             k < 0 -> (reaches u v n' <-> reaches v u n)).
  { intros U V HU HV u v P. unfold reaches.
    split; intros (p & q & Ip & Iq & L); exists q, p; repeat split; auto;
      pose proof (dot_scale p n n' k E); pose proof (dot_scale q n n' k E);
      nra. }
  destruct (Q_dec k 0) as [[N|P]|Z]; [| |contradiction].
  - rewrite (O _ _ _ _ A B N), (O _ _ _ _ B A N). tauto.
  - rewrite (S _ _ _ _ A B P), (S _ _ _ _ B A P). tauto.
Qed.

Lemma same_line_refl (n : vec3) : same_line n n.
Proof.
  exists 1. split; [discriminate|]. unfold veq, scale; simpl.
  repeat split; ring.
Qed.

Lemma same_line_sym (n n' : vec3) : same_line n n' -> same_line n' n.
Proof.
  intros (k & K & (Hx & Hy & Hz)). exists (/ k). split.
  - intros Z. apply K. rewrite <- (Qinv_involutive k), Z. reflexivity.
  - unfold veq, scale in *; simpl in *. rewrite Hx, Hy, Hz.
    repeat split; field; exact K.
Qed.

Lemma same_line_cross_l (e e' f : vec3) :
  same_line e e' -> same_line (cross e f) (cross e' f).
Proof.
  intros (k & K & (Hx & Hy & Hz)). exists k. split; [exact K|].
  unfold veq, cross, scale in *; simpl in *. rewrite Hx, Hy, Hz.
  repeat split; ring.
Qed.

Lemma Forall2_In_r {A B} (R : A -> B -> Prop) (l : list A) (l' : list B) :
  Forall2 R l l' -> forall b, In b l' -> exists a, In a l /\ R a b.
Proof.
  induction 1 as [|a b l l' Rab _ IH]; intros c I; [destruct I|].
  destruct I as [<-|I].
  - exists a. split; [left; reflexivity|exact Rab].
  - destruct (IH c I) as (a' & Ia & Ra). exists a'. split; [right|]; assumption.
Qed.

Lemma Forall2_flip {A B} (R : A -> B -> Prop) (l : list A) (l' : list B) :
  Forall2 R l l' -> Forall2 (fun b a => R a b) l' l.
Proof. induction 1; constructor; assumption. Qed.

Lemma In_sat_axes {T1 T2} `{Body T1} `{Body T2} (A : T1) (B : T2) (n : vec3) :
  In n (sat_axes A B) <->
  In n (face_normals A) \/ In n (face_normals B) \/
  exists eA eB, In eA (edge_directions A) /\ In eB (edge_directions B) /\
                n = cross eA eB.
Proof.
  unfold sat_axes. rewrite !in_app_iff, in_flat_map.
  split; (intros [I|[I|I]]; [left; exact I|right; left; exact I|right; right]).
  - destruct I as (eA & IA & I). apply in_map_iff in I.
    destruct I as (eB & <- & IB). eauto.
  - destruct I as (eA & eB & IA & IB & ->). exists eA. split; [exact IA|].
    apply in_map_iff. eauto.
Qed.

(** One direction of the invariance: the first body is replaced by one
    with the same vertex set and with axes on the same lines. *)
Lemma intersect_same_lines_true {T1 T1' T2} `{Body T1} `{Body T1'} `{Body T2}
  (A : T1) (A' : T1') (B : T2) :
  (forall p, In p (vertices A) <-> In p (vertices A')) ->
  (forall n', In n' (face_normals A') ->
     exists n, In n (face_normals A) /\ same_line n n') ->
  (forall e', In e' (edge_directions A') ->
     exists e, In e (edge_directions A) /\ same_line e e') ->
  intersect A B = true -> intersect A' B = true.
Proof.
  intros V F E. rewrite !intersect_true_iff. intros HA n' I.
  rewrite <- (intersect_along_vertices_ext A A' B n' V).
  apply In_sat_axes in I. destruct I as [I|[I|(eA' & eB & IA & IB & ->)]].
  - destruct (F n' I) as (n & In & S).
    rewrite (intersect_along_same_line A B n n' S).
    apply HA, In_sat_axes. auto.
  - apply HA, In_sat_axes. auto.
  - destruct (E eA' IA) as (eA & IeA & S).
    rewrite (intersect_along_same_line A B _ _ (same_line_cross_l _ _ eB S)).
    apply HA, In_sat_axes. right; right. eauto.
Qed.

Lemma intersect_same_lines {T1 T1' T2} `{Body T1} `{Body T1'} `{Body T2}
  (A : T1) (A' : T1') (B : T2) :
  (forall p, In p (vertices A) <-> In p (vertices A')) ->
  Forall2 same_line (face_normals A) (face_normals A') ->
  Forall2 same_line (edge_directions A) (edge_directions A') ->
  intersect A B = intersect A' B.
Proof.
  intros V F E. apply eq_true_iff_eq. split.
  - apply intersect_same_lines_true.
    + exact V.
    + apply (Forall2_In_r _ _ _ F).
    + apply (Forall2_In_r _ _ _ E).
  - apply intersect_same_lines_true.
    + intros p. symmetry. apply V.
    + intros n I.
      destruct (Forall2_In_r _ _ _ (Forall2_flip _ _ _ F) n I) as (n' & I' & S).
      exists n'. split; [exact I'|apply same_line_sym; exact S].
    + intros n I.
      destruct (Forall2_In_r _ _ _ (Forall2_flip _ _ _ E) n I) as (n' & I' & S).
      exists n'. split; [exact I'|apply same_line_sym; exact S].
Qed.

Lemma intersect_swap {T1 T2} `{Body T1} `{Body T2} (A : T1) (B : T2) :
  intersect A B = intersect B A.
Proof. apply eq_true_iff_eq. split; apply intersect_swap_true. Qed.


Lemma same_line_axis_example (n n' : vec3) (k : Q) :
  Qeq_bool k 0 = false ->
  Qeq_bool (x n') (k * x n) && Qeq_bool (y n') (k * y n) &&
  Qeq_bool (z n') (k * z n) = true ->
  same_line n n'.
Proof.
  intros K E. apply andb_true_iff in E. destruct E as [E Ez].
  apply andb_true_iff in E. destruct E as [Ex Ey].
  exists k. split.
  - apply Qeq_bool_neq. exact K.
  - repeat split; apply Qeq_bool_iff; assumption.
Qed.


(** ** Boxes built from corners in any order, boxes inside boxes *)

Lemma make_aabb_corner_order (a b p : vec3) :
  In p (vertices (make_aabb a b)) <->
  In p (vertices (make_aabb (corner_min a b) (corner_max a b))).
Proof.
  rewrite !make_aabb_vertices. unfold corner_min, corner_max.
  destruct (Qle_bool (x a) (x b)), (Qle_bool (y a) (y b)),
    (Qle_bool (z a) (z b)); simpl; tauto.
Qed.

Lemma Forall2_same_line_refl (l : list vec3) : Forall2 same_line l l.
Proof. induction l; constructor; [apply same_line_refl|assumption]. Qed.

Lemma corner_min_max_well_formed (a b : vec3) :
  well_formed (corner_min a b) (corner_max a b).
Proof.
  unfold well_formed, corner_min, corner_max; simpl.
  repeat split.
  - destruct (Qle_bool (x a) (x b)) eqn:C;
      [apply Qle_bool_iff in C|apply Qle_bool_false in C]; lra.
  - destruct (Qle_bool (y a) (y b)) eqn:C;
      [apply Qle_bool_iff in C|apply Qle_bool_false in C]; lra.
  - destruct (Qle_bool (z a) (z b)) eqn:C;
      [apply Qle_bool_iff in C|apply Qle_bool_false in C]; lra.
Qed.

(** X5.  The constructor of [aabb] does not need [min <= max]: given two
    opposite corners in any order, per axis, the box intersects a body
    exactly when the box of the sorted corners does, and that box is well
    formed. *)
Theorem make_aabb_any_corner_order {T} `{Body T} (a b : vec3) (S : T) :
  well_formed (corner_min a b) (corner_max a b) /\
  intersect (make_aabb a b) S =
  intersect (make_aabb (corner_min a b) (corner_max a b)) S /\
  intersect S (make_aabb a b) =
  intersect S (make_aabb (corner_min a b) (corner_max a b)).
Proof.
  assert (E : intersect (make_aabb a b) S =
              intersect (make_aabb (corner_min a b) (corner_max a b)) S).
  { apply intersect_same_lines.
    - apply make_aabb_corner_order.
    - apply Forall2_same_line_refl.
    - apply Forall2_same_line_refl. }
  split; [apply corner_min_max_well_formed|]. split; [exact E|].
  rewrite (intersect_swap S), E. apply intersect_swap.
Qed.

(** X6.  On boxes [intersect] is monotone: enlarging the first box keeps
    an intersection; in particular a box intersects every box that
    contains it. *)
Theorem aabb_intersect_monotone (minA maxA minA' maxA' minB maxB : vec3) :
  well_formed minA maxA -> well_formed minB maxB ->
  box_inside minA maxA minA' maxA' ->
  (intersect (make_aabb minA maxA) (make_aabb minB maxB) = true ->
   intersect (make_aabb minA' maxA') (make_aabb minB maxB) = true) /\
  intersect (make_aabb minA maxA) (make_aabb minA' maxA') = true.
Proof.
  intros WA WB I.
  assert (WA' : well_formed minA' maxA').
  { unfold well_formed, box_inside in *. repeat split; lra. }
  split.
  - intros T. apply (intersect_aabb_iff _ _ _ _ WA WB) in T.
    apply (intersect_aabb_iff _ _ _ _ WA' WB).
    unfold overlap_1d, well_formed, box_inside in *. repeat split; lra.
  - apply (intersect_aabb_iff _ _ _ _ WA WA').
    unfold overlap_1d, well_formed, box_inside in *. repeat split; lra.
Qed.

Lemma aabb_intersect_monotone_witness :
  (intersect (make_aabb (Vec3 0 0 0) (Vec3 1 1 1))
             (make_aabb (Vec3 1 1 1) (Vec3 2 2 2)) = true ->
   intersect (make_aabb (Vec3 (-1) (-1) (-1)) (Vec3 2 2 2))
             (make_aabb (Vec3 1 1 1) (Vec3 2 2 2)) = true) /\
  intersect (make_aabb (Vec3 0 0 0) (Vec3 1 1 1))
            (make_aabb (Vec3 (-1) (-1) (-1)) (Vec3 2 2 2)) = true.
Proof.
  apply (aabb_intersect_monotone
           (Vec3 0 0 0) (Vec3 1 1 1) (Vec3 (-1) (-1) (-1)) (Vec3 2 2 2)
           (Vec3 1 1 1) (Vec3 2 2 2)).
  - repeat split; vm_compute; discriminate.
  - repeat split; vm_compute; discriminate.
  - repeat split; vm_compute; discriminate.
Defined.

(** ** The frustum vertices project back to the clip-space corners *)

Lemma perspective_divide_round_trip (vp : mat4) (c k : vec4) :
  veq4 (mul_mv vp c) k -> w4 k == 1 -> ~ w4 c == 0 ->
  let p := xyz (vdiv c (w4 c)) in
  let h := mul_mv vp (Vec4 (x p) (y p) (z p) 1) in
  veq4 (vdiv h (w4 h)) k.
Proof.
  destruct vp as [[a00 a01 a02 a03] [a10 a11 a12 a13]
                  [a20 a21 a22 a23] [a30 a31 a32 a33]].
  destruct c as [cx cy cz cw]. destruct k as [kx ky kz kw].
  cbv [veq4 mul_mv vadd vscale vdiv xyz x4 y4 z4 w4 c0 c1 c2 c3 x y z].
  intros (H1 & H2 & H3 & H4) K W.
  assert (E1 : a00 * (cx / cw) + a10 * (cy / cw) +
               (a20 * (cz / cw) + a30 * 1) == kx / cw)
    by (rewrite <- H1; field; exact W).
  assert (E2 : a01 * (cx / cw) + a11 * (cy / cw) +
               (a21 * (cz / cw) + a31 * 1) == ky / cw)
    by (rewrite <- H2; field; exact W).
  assert (E3 : a02 * (cx / cw) + a12 * (cy / cw) +
               (a22 * (cz / cw) + a32 * 1) == kz / cw)
    by (rewrite <- H3; field; exact W).
  assert (E4 : a03 * (cx / cw) + a13 * (cy / cw) +
               (a23 * (cz / cw) + a33 * 1) == kw / cw)
    by (rewrite <- H4; field; exact W).
  rewrite E1, E2, E3, E4, K.
  repeat split; field; exact W.
Qed.

Lemma make_frustum_vertex_at (vp : mat4) (i : N) :
  (i < 8)%N ->
  at_ (vertices (make_frustum vp)) i = frustum_vertex (inverse vp) i.
Proof.
  intros L.
  assert (C : (i = 0 \/ i = 1 \/ i = 2 \/ i = 3 \/
               i = 4 \/ i = 5 \/ i = 6 \/ i = 7)%N) by lia.
  rewrite make_frustum_vertices.
  repeat (destruct C as [->|C]; [reflexivity|]). subst i. reflexivity.
Qed.



(** * mesh_utils: the bounding box *)

Lemma scan_Fin (qs : list Q) :
  forall m0 M0 : Q,
  exists m M : Q,
    scan qs (Fin m0) (Fin M0) = (Fin m, Fin M) /\
    is_min m (m0 :: qs) /\ is_max M (M0 :: qs).
Proof.
  induction qs as [|v qs IH]; intros m0 M0.
  - exists m0, M0. repeat split; simpl; auto.
    + intros u [<-|[]]. apply Qle_refl.
    + intros u [<-|[]]. apply Qle_refl.
  - cbn [scan]. rewrite std_min_Fin, std_max_Fin.
    destruct (IH (if Qle_bool m0 v then m0 else v)
                 (if Qle_bool v M0 then M0 else v))
      as (m & M & E & [Im Lm] & [IM LM]).
    exists m, M. split; [exact E|]. clear E IH.
    split; split.
    + destruct Im as [<-|Im]; [|right; right; exact Im].
      destruct (Qle_bool m0 v); [left|right; left]; reflexivity.
    + assert (L0 : m <= (if Qle_bool m0 v then m0 else v))
        by (apply Lm; left; reflexivity).
      intros u [<-|[<-|Iu]]; [| |apply Lm; right; exact Iu].
      * destruct (Qle_bool m0 v) eqn:C; [exact L0|].
        apply Qle_bool_false in C. lra.
      * destruct (Qle_bool m0 v) eqn:C; [|exact L0].
        apply Qle_bool_iff in C. lra.
    + destruct IM as [<-|IM]; [|right; right; exact IM].
      destruct (Qle_bool v M0); [left|right; left]; reflexivity.
    + assert (L0 : (if Qle_bool v M0 then M0 else v) <= M)
        by (apply LM; left; reflexivity).
      intros u [<-|[<-|Iu]]; [| |apply LM; right; exact Iu].
      * destruct (Qle_bool v M0) eqn:C; [exact L0|].
        apply Qle_bool_false in C. lra.
      * destruct (Qle_bool v M0) eqn:C; [|exact L0].
        apply Qle_bool_iff in C. lra.
Qed.

Lemma scan_nonempty (q : Q) (qs : list Q) :
  exists m M : Q,
    scan (q :: qs) inf (fneg inf) = (Fin m, Fin M) /\
    is_min m (q :: qs) /\ is_max M (q :: qs).
Proof.
  cbn [scan]. change (std_min inf (Fin q)) with (Fin q).
  change (std_max (fneg inf) (Fin q)) with (Fin q).
  apply scan_Fin.
Qed.

(** [bbox] scans the three coordinates independently. *)
Lemma bbox_loop_scan (vs : list mesh_utils.vertex) :
  forall a b c d e f : float,
  mesh_utils.bbox_loop vs (FVec3 a b c) (FVec3 d e f) =
  (let sx := scan (map (fun v => x (mesh_utils.position v)) vs) a d in
   let sy := scan (map (fun v => y (mesh_utils.position v)) vs) b e in
   let sz := scan (map (fun v => z (mesh_utils.position v)) vs) c f in
   (FVec3 (fst sx) (fst sy) (fst sz), FVec3 (snd sx) (snd sy) (snd sz))).
Proof.
  induction vs as [|v vs IH]; intros a b c d e f; [reflexivity|].
  cbn [mesh_utils.bbox_loop map scan]. unfold glm_min, glm_max, of_vec3.
  cbn [fx fy fz]. apply IH.
Qed.

(** X8.  On a mesh with at least one vertex [bbox] returns two finite
    corners [lo] and [hi]: every position lies between them on each axis,
    and each of the six bounds is the coordinate of some vertex. *)
Theorem bbox_bounds (vs : list mesh_utils.vertex) :
  vs <> [] ->
  exists lo hi : vec3,
    mesh_utils.bbox vs = (of_vec3 lo, of_vec3 hi) /\
    (forall v, In v vs ->
       let p := mesh_utils.position v in
       x lo <= x p <= x hi /\ y lo <= y p <= y hi /\ z lo <= z p <= z hi) /\
    (exists v, In v vs /\ x (mesh_utils.position v) = x lo) /\
    (exists v, In v vs /\ y (mesh_utils.position v) = y lo) /\
    (exists v, In v vs /\ z (mesh_utils.position v) = z lo) /\
    (exists v, In v vs /\ x (mesh_utils.position v) = x hi) /\
    (exists v, In v vs /\ y (mesh_utils.position v) = y hi) /\
    (exists v, In v vs /\ z (mesh_utils.position v) = z hi).
Proof.
  intros NE. destruct vs as [|v0 vs]; [congruence|]. clear NE.
  unfold mesh_utils.bbox, splat. rewrite bbox_loop_scan. cbn [map].
  destruct (scan_nonempty (x (mesh_utils.position v0))
              (map (fun v => x (mesh_utils.position v)) vs))
    as (mx & Mx & -> & [Imx Lmx] & [IMx LMx]).
  destruct (scan_nonempty (y (mesh_utils.position v0))
              (map (fun v => y (mesh_utils.position v)) vs))
    as (my & My & -> & [Imy Lmy] & [IMy LMy]).
  destruct (scan_nonempty (z (mesh_utils.position v0))
              (map (fun v => z (mesh_utils.position v)) vs))
    as (mz & Mz & -> & [Imz Lmz] & [IMz LMz]).
  exists (Vec3 mx my mz), (Vec3 Mx My Mz). cbn [fst snd x y z].
  split; [reflexivity|].
  change (x (mesh_utils.position v0) ::
          map (fun v => x (mesh_utils.position v)) vs)
    with (map (fun v => x (mesh_utils.position v)) (v0 :: vs)) in *.
  change (y (mesh_utils.position v0) ::
          map (fun v => y (mesh_utils.position v)) vs)
    with (map (fun v => y (mesh_utils.position v)) (v0 :: vs)) in *.
  change (z (mesh_utils.position v0) ::
          map (fun v => z (mesh_utils.position v)) vs)
    with (map (fun v => z (mesh_utils.position v)) (v0 :: vs)) in *.
  split.
  - intros v Iv. cbv zeta.
    pose proof (in_map (fun v => x (mesh_utils.position v)) _ _ Iv) as Ix.
    pose proof (in_map (fun v => y (mesh_utils.position v)) _ _ Iv) as Iy.
    pose proof (in_map (fun v => z (mesh_utils.position v)) _ _ Iv) as Iz.
    repeat split; auto.
  - apply in_map_iff in Imx, Imy, Imz, IMx, IMy, IMz.
    destruct Imx as (v1 & E1 & I1), Imy as (v2 & E2 & I2),
      Imz as (v3 & E3 & I3), IMx as (v4 & E4 & I4),
      IMy as (v5 & E5 & I5), IMz as (v6 & E6 & I6).
    repeat split; eauto.
Qed.

Lemma bbox_bounds_witness :
  exists lo hi : vec3,
    mesh_utils.bbox example_mesh = (of_vec3 lo, of_vec3 hi) /\
    (forall v, In v example_mesh ->
       let p := mesh_utils.position v in
       x lo <= x p <= x hi /\ y lo <= y p <= y hi /\ z lo <= z p <= z hi) /\
    (exists v, In v example_mesh /\ x (mesh_utils.position v) = x lo) /\
    (exists v, In v example_mesh /\ y (mesh_utils.position v) = y lo) /\
    (exists v, In v example_mesh /\ z (mesh_utils.position v) = z lo) /\
    (exists v, In v example_mesh /\ x (mesh_utils.position v) = x hi) /\
    (exists v, In v example_mesh /\ y (mesh_utils.position v) = y hi) /\
    (exists v, In v example_mesh /\ z (mesh_utils.position v) = z hi).
Proof. apply (bbox_bounds example_mesh). discriminate. Defined.

(** ** Culling by the bounding box *)

Lemma make_aabb_corner_In (min max : vec3) (bx by_ bz : bool) :
  In (Vec3 (if bx then x max else x min)
           (if by_ then y max else y min)
           (if bz then z max else z min))
     (vertices (make_aabb min max)).
Proof.
  rewrite make_aabb_vertices. destruct bx, by_, bz; simpl; tauto.
Qed.

Lemma pick_below (lo hi p n : Q) (b : bool) :
  lo <= p <= hi -> b = negb (Qle_bool 0 n) ->
  (if b then hi else lo) * n <= p * n.
Proof.
  intros B ->. destruct (Qle_bool 0 n) eqn:C; simpl.
  - apply Qle_bool_iff in C. nra.
  - apply Qle_bool_false in C. nra.
Qed.

Lemma pick_above (lo hi p n : Q) (b : bool) :
  lo <= p <= hi -> b = Qle_bool 0 n ->
  p * n <= (if b then hi else lo) * n.
Proof.
  intros B ->. destruct (Qle_bool 0 n) eqn:C; simpl.
  - apply Qle_bool_iff in C. nra.
  - apply Qle_bool_false in C. nra.
Qed.

(** A point inside the box projects between two corners of the box. *)
Lemma box_corners_around (lo hi p n : vec3) :
  x lo <= x p <= x hi -> y lo <= y p <= y hi -> z lo <= z p <= z hi ->
  (exists c, In c (vertices (make_aabb lo hi)) /\ dot c n <= dot p n) /\
  (exists c, In c (vertices (make_aabb lo hi)) /\ dot p n <= dot c n).
Proof.
  intros Bx By Bz. split.
  - exists (Vec3 (if negb (Qle_bool 0 (x n)) then x hi else x lo)
                 (if negb (Qle_bool 0 (y n)) then y hi else y lo)
                 (if negb (Qle_bool 0 (z n)) then z hi else z lo)).
    split; [apply make_aabb_corner_In|].
    pose proof (pick_below _ _ _ (x n) _ Bx eq_refl).
    pose proof (pick_below _ _ _ (y n) _ By eq_refl).
    pose proof (pick_below _ _ _ (z n) _ Bz eq_refl).
    unfold dot. cbn [x y z]. lra.
  - exists (Vec3 (if Qle_bool 0 (x n) then x hi else x lo)
                 (if Qle_bool 0 (y n) then y hi else y lo)
                 (if Qle_bool 0 (z n) then z hi else z lo)).
    split; [apply make_aabb_corner_In|].
    pose proof (pick_above _ _ _ (x n) _ Bx eq_refl).
    pose proof (pick_above _ _ _ (y n) _ By eq_refl).
    pose proof (pick_above _ _ _ (z n) _ Bz eq_refl).
    unfold dot. cbn [x y z]. lra.
Qed.

Lemma of_vec3_inj (a b : vec3) : of_vec3 a = of_vec3 b -> a = b.
Proof.
  destruct a, b. unfold of_vec3. cbn [x y z]. intros E.
  injection E as -> -> ->. reflexivity.
Qed.

(** When [bbox] returns finite corners, every position lies between
    them. *)
Lemma bbox_contains (vs : list mesh_utils.vertex) (lo hi : vec3) :
  mesh_utils.bbox vs = (of_vec3 lo, of_vec3 hi) ->
  vs <> [] /\
  forall v, In v vs ->
    x lo <= x (mesh_utils.position v) <= x hi /\
    y lo <= y (mesh_utils.position v) <= y hi /\
    z lo <= z (mesh_utils.position v) <= z hi.
Proof.
  intros E. destruct vs as [|v0 vs]; [discriminate|].
  split; [discriminate|].
  unfold mesh_utils.bbox, splat in E. rewrite bbox_loop_scan in E.
  cbn [map] in E.
  destruct (scan_nonempty (x (mesh_utils.position v0))
              (map (fun v => x (mesh_utils.position v)) vs))
    as (mx & Mx & Ex & [_ Lmx] & [_ LMx]).
  destruct (scan_nonempty (y (mesh_utils.position v0))
              (map (fun v => y (mesh_utils.position v)) vs))
    as (my & My & Ey & [_ Lmy] & [_ LMy]).
  destruct (scan_nonempty (z (mesh_utils.position v0))
              (map (fun v => z (mesh_utils.position v)) vs))
    as (mz & Mz & Ez & [_ Lmz] & [_ LMz]).
  rewrite Ex, Ey, Ez in E. cbn [fst snd] in E.
  destruct lo as [lx ly lz], hi as [hx hy hz]. unfold of_vec3 in E.
  cbn [x y z] in *. injection E as <- <- <- <- <- <-.
  intros v Iv.
  pose proof (in_map (fun v => x (mesh_utils.position v)) _ _ Iv) as Ix.
  pose proof (in_map (fun v => y (mesh_utils.position v)) _ _ Iv) as Iy.
  pose proof (in_map (fun v => z (mesh_utils.position v)) _ _ Iv) as Iz.
  cbn [map] in Ix, Iy, Iz.
  repeat split; auto.
Qed.



(** * Sampling a spline *)

Lemma lower_bound_le (ts : list Q) (time : Q) :
  (lower_bound ts time <= length ts)%nat.
Proof.
  induction ts as [|t ts IH]; simpl; [lia|].
  destruct (Qle_bool time t); simpl; lia.
Qed.

(** Every element before the position found is less than [time]; the
    element at the position, when there is one, is not. *)
Lemma lower_bound_spec (ts : list Q) (time : Q) :
  (forall j, (j < lower_bound ts time)%nat -> nth j ts 0 < time) /\
  ((lower_bound ts time < length ts)%nat ->
   time <= nth (lower_bound ts time) ts 0).
Proof.
  induction ts as [|t ts [IHb IHa]]; simpl.
  - split; intros; lia.
  - destruct (Qle_bool time t) eqn:C; simpl.
    + apply Qle_bool_iff in C. split; [intros; lia|auto].
    + apply Qle_bool_false in C. split.
      * intros [|j] L; [exact C|]. apply IHb. lia.
      * intros L. apply IHa. lia.
Qed.

Lemma nth_error_Some_lt {A} (l : list A) (i : nat) :
  (i < length l)%nat -> exists a, nth_error l i = Some a.
Proof.
  intros L. destruct (nth_error l i) eqn:E; [eauto|].
  apply nth_error_None in E. lia.
Qed.

(** The shape of every result on a non-empty list of values that is at
    least as long as the list of timestamps. *)
Lemma spline_at_cases (s : gltf_model.spline) (time : Q) :
  gltf_model.values s <> [] ->
  (length (gltf_model.timestamps s) <= length (gltf_model.values s))%nat ->
  let ts := gltf_model.timestamps s in
  let vs := gltf_model.values s in
  let i := lower_bound ts time in
  (i = O \/ i = length ts) /\
    gltf_model.spline_at s time = Value (last vs zero) \/
  exists v0 v1,
    (0 < i < length ts)%nat /\
    nth_error vs (i - 1) = Some v0 /\ nth_error vs i = Some v1 /\
    nth (i - 1) ts 0 < time <= nth i ts 0 /\
    gltf_model.spline_at s time =
      Value (lerp v0 v1 ((time - nth (i - 1) ts 0) /
                         (nth i ts 0 - nth (i - 1) ts 0))).
Proof.
  intros NE L. cbv zeta. unfold gltf_model.spline_at.
  set (ts := gltf_model.timestamps s) in *.
  set (i := lower_bound ts time).
  destruct (gltf_model.values s) as [|v vs'] eqn:V; [congruence|].
  rewrite <- V in *. set (vs := gltf_model.values s) in *.
  destruct (Nat.eqb i 0) eqn:E0.
  { left. apply Nat.eqb_eq in E0. auto. }
  destruct (Nat.eqb i (length ts)) eqn:E1.
  { left. apply Nat.eqb_eq in E1. auto. }
  right. apply Nat.eqb_neq in E0, E1.
  pose proof (lower_bound_le ts time) as B. fold i in B.
  destruct (lower_bound_spec ts time) as [Sb Sa]. fold i in Sb, Sa.
  destruct (nth_error_Some_lt vs (i - 1)) as (v0 & ->); [lia|].
  destruct (nth_error_Some_lt vs i) as (v1 & ->); [lia|].
  exists v0, v1. repeat split; try lia.
  - apply Sb. lia.
  - apply Sa. lia.
Qed.

(** X10.  With at least as many values as timestamps, sampling fails
    exactly when there is no value (the assertion), and never reads
    outside the arrays. *)
Theorem spline_at_fails_only_on_no_values (s : gltf_model.spline) (time : Q) :
  (length (gltf_model.timestamps s) <= length (gltf_model.values s))%nat ->
  (gltf_model.spline_at s time = AssertFailed <-> gltf_model.values s = []) /\
  gltf_model.spline_at s time <> OutOfBounds.
Proof.
  intros L. destruct (gltf_model.values s) as [|v vs] eqn:V.
  - unfold gltf_model.spline_at. rewrite V.
    split; [tauto|discriminate].
  - assert (NE : gltf_model.values s <> []) by (rewrite V; discriminate).
    rewrite <- V in L.
    destruct (spline_at_cases s time NE L)
      as [[_ E]|(v0 & v1 & _ & _ & _ & _ & E)]; rewrite E;
      (split; [split; discriminate|discriminate]).
Qed.

Lemma spline_at_fails_only_on_no_values_witness :
  (gltf_model.spline_at example_spline 2 = AssertFailed <->
   gltf_model.values example_spline = []) /\
  gltf_model.spline_at example_spline 2 <> OutOfBounds.
Proof.
  apply (spline_at_fails_only_on_no_values example_spline 2). simpl. lia.
Defined.

Lemma lower_bound_head (ts : list Q) (time : Q) :
  (forall t0, hd_error ts = Some t0 -> time <= t0) ->
  lower_bound ts time = O.
Proof.
  destruct ts as [|t ts]; simpl; [reflexivity|].
  intros Hd. assert (L := Hd t eq_refl). apply Qle_bool_iff in L.
  rewrite L. reflexivity.
Qed.

Lemma lower_bound_all (ts : list Q) (time : Q) :
  (forall t, In t ts -> t < time) -> lower_bound ts time = length ts.
Proof.
  induction ts as [|t ts IH]; simpl; [reflexivity|].
  intros A. assert (L := A t (or_introl eq_refl)).
  apply Qle_bool_false in L. rewrite L. simpl.
  rewrite IH; [reflexivity|]. intros u Iu. apply A. right. exact Iu.
Qed.

(** X11.  Outside the keys the spline does not extrapolate: for a time
    not after any timestamp (or with no timestamp at all), and for a time
    after every timestamp, the result is the last value. *)
Theorem spline_at_outside_returns_last (s : gltf_model.spline) (time : Q) :
  gltf_model.values s <> [] ->
  (forall t, In t (gltf_model.timestamps s) -> time <= t) \/
  (forall t, In t (gltf_model.timestamps s) -> t < time) ->
  gltf_model.spline_at s time = Value (last (gltf_model.values s) zero).
Proof.
  intros NE C. unfold gltf_model.spline_at.
  destruct (gltf_model.values s) as [|v vs]; [congruence|].
  destruct C as [C|C].
  - rewrite lower_bound_head; [reflexivity|].
    intros t0 E. apply C. destruct (gltf_model.timestamps s); [discriminate|].
    injection E as <-. left. reflexivity.
  - rewrite (lower_bound_all _ _ C).
    destruct (Nat.eqb (length (gltf_model.timestamps s)) 0); [reflexivity|].
    rewrite Nat.eqb_refl. reflexivity.
Qed.

Lemma spline_at_outside_returns_last_witness :
  gltf_model.spline_at example_spline 0 = Value (Vec3 2 4 0) /\
  gltf_model.spline_at example_spline 7 = Value (Vec3 2 4 0).
Proof.
  split.
  - apply (spline_at_outside_returns_last example_spline 0).
    + discriminate.
    + left. simpl. intros t I.
      repeat (destruct I as [<-|I]; [vm_compute; discriminate|]). destruct I.
  - apply (spline_at_outside_returns_last example_spline 7).
    + discriminate.
    + right. simpl. intros t I.
      repeat (destruct I as [<-|I]; [reflexivity|]). destruct I.
Defined.

Lemma segment_parameter (t0 t1 time : Q) :
  t0 < time <= t1 -> 0 < (time - t0) / (t1 - t0) <= 1.
Proof.
  intros [A B]. assert (D : 0 < t1 - t0) by lra. split.
  - apply Qlt_shift_div_l; [exact D|]. lra.
  - apply Qle_shift_div_r; [exact D|]. lra.
Qed.

Lemma lerp_between (a b : vec3) (u : Q) :
  0 <= u <= 1 -> between a b (lerp a b u).
Proof.
  intros U. unfold between, lerp; cbn [x y z].
  repeat split.
  - destruct (Qlt_le_dec (x b) (x a)); [right|left]; nra.
  - destruct (Qlt_le_dec (y b) (y a)); [right|left]; nra.
  - destruct (Qlt_le_dec (z b) (z a)); [right|left]; nra.
Qed.



Lemma lower_bound_at_key (ts : list Q) :
  increasing ts -> forall i, (i < length ts)%nat ->
  lower_bound ts (nth i ts 0) = i.
Proof.
  induction ts as [|t ts IH]; intros Inc i L; [simpl in L; lia|].
  destruct Inc as [H Inc]. destruct i as [|i]; simpl.
  - assert (C : Qle_bool t t = true) by (apply Qle_bool_iff, Qle_refl).
    rewrite C. reflexivity.
  - simpl in L.
    assert (C : t < nth i ts 0) by (apply H, nth_In; lia).
    apply Qle_bool_false in C. rewrite C. simpl.
    rewrite (IH Inc i); [reflexivity|lia].
Qed.



(** * Bezier curves *)

Lemma upd_app {A} (pre : list A) (a v : A) (rest : list A) :
  upd (length pre) v (pre ++ a :: rest) = pre ++ v :: rest.
Proof. induction pre as [|h pre IH]; simpl; [reflexivity|]. rewrite IH. reflexivity. Qed.

Lemma nth_app_here {A} (pre : list A) (a d : A) (rest : list A) :
  nth (length pre) (pre ++ a :: rest) d = a.
Proof. induction pre as [|h pre IH]; simpl; [reflexivity|exact IH]. Qed.

Lemma nth_app_next {A} (pre : list A) (a b d : A) (rest : list A) :
  nth (length pre + 1) (pre ++ a :: b :: rest) d = b.
Proof. induction pre as [|h pre IH]; simpl; [reflexivity|exact IH]. Qed.

(** A loop that assigns [g i] to element [i], for [i] from [k] on. *)
Lemma fill_loop {A} (g : nat -> A) (c : nat) :
  forall (pre rest : list A), length rest = c ->
  for_range c (N.of_nat (length pre))
    (fun i a => upd (N.to_nat i) (g (N.to_nat i)) a) (pre ++ rest) =
  pre ++ map g (seq (length pre) c).
Proof.
  induction c as [|c IH]; intros pre rest L.
  - destruct rest; [reflexivity|discriminate].
  - destruct rest as [|r rest]; [discriminate|].
    cbn [for_range seq map]. rewrite Nat2N.id, upd_app.
    replace (N.of_nat (length pre) + 1)%N
      with (N.of_nat (length (pre ++ [g (length pre)])))
      by (rewrite length_app; simpl; lia).
    replace (pre ++ g (length pre) :: rest)
      with ((pre ++ [g (length pre)]) ++ rest)
      by (rewrite <- app_assoc; reflexivity).
    rewrite IH by (simpl in L; lia).
    rewrite <- app_assoc, length_app. simpl.
    replace (length pre + 1)%nat with (S (length pre)) by lia. reflexivity.
Qed.

Lemma map_nth_seq {A B} (f : A -> B) (d : A) (l : list A) :
  map (fun i => f (nth i l d)) (seq 0 (length l)) = map f l.
Proof.
  induction l as [|a l IH]; [reflexivity|].
  cbn [length seq map nth]. f_equal.
  rewrite <- seq_shift, map_map. exact IH.
Qed.

Lemma step_length (t : Q) (l : list practice3.vec2) :
  length (step t l) = (length l - 1)%nat.
Proof.
  induction l as [|a [|b l] IH]; [reflexivity|reflexivity|].
  change (step t (a :: b :: l)) with (mix2 t a b :: step t (b :: l)).
  cbn [length] in *. rewrite IH. lia.
Qed.

Lemma levels_length (t : Q) (k : nat) :
  forall l, length (levels t k l) = (length l - k)%nat.
Proof.
  induction k as [|k IH]; intros l; simpl; [lia|].
  rewrite IH, step_length. lia.
Qed.

(** The inner loop of [bezier]: the first [c] points become the next
    level, the others stay. *)
Lemma blend_loop (t : Q) (c : nat) :
  forall (pre rest : list practice3.vec2), (c < length rest)%nat ->
  for_range c (N.of_nat (length pre)) (practice3.blend t) (pre ++ rest) =
  pre ++ firstn c (step t rest) ++ skipn c rest.
Proof.
  induction c as [|c IH]; intros pre rest L; [reflexivity|].
  destruct rest as [|a [|b rest]]; [simpl in L; lia|simpl in L; lia|].
  cbn [for_range]. unfold practice3.blend at 2. rewrite Nat2N.id.
  rewrite nth_app_here, nth_app_next, upd_app.
  fold (mix2 t a b).
  replace (N.of_nat (length pre) + 1)%N
    with (N.of_nat (length (pre ++ [mix2 t a b])))
    by (rewrite length_app; simpl; lia).
  replace (pre ++ mix2 t a b :: b :: rest)
    with ((pre ++ [mix2 t a b]) ++ b :: rest)
    by (rewrite <- app_assoc; reflexivity).
  rewrite IH by (simpl in L |- *; lia).
  rewrite <- app_assoc. reflexivity.
Qed.

Lemma firstn_step (t : Q) (m : nat) :
  forall l, firstn m (step t l) = step t (firstn (m + 1) l).
Proof.
  induction m as [|m IH]; intros l.
  - destruct l as [|a [|b l]]; reflexivity.
  - destruct l as [|a [|b l]]; [reflexivity| |].
    + cbn [Nat.add firstn step]. rewrite firstn_nil. reflexivity.
    + change (step t (a :: b :: l)) with (mix2 t a b :: step t (b :: l)).
      cbn [firstn Nat.add]. rewrite IH.
      replace (m + 1)%nat with (S m) by lia. reflexivity.
Qed.

(** The outer loop of [bezier]: after [c] more passes the live prefix
    holds the level [c] of the scheme. *)
Lemma passes_loop (t : Q) (n c : nat) :
  forall (k : nat) (points : list practice3.vec2),
  length points = n -> (k + c <= n - 1)%nat ->
  let points' :=
    for_range c (N.of_nat k)
      (fun k ps => for_range (n - (N.to_nat k + 1)) 0%N (practice3.blend t) ps)
      points in
  length points' = n /\
  firstn (n - k - c) points' = levels t c (firstn (n - k) points).
Proof.
  induction c as [|c IH]; intros k points L B; cbv zeta.
  - cbn [for_range levels]. split; [exact L|]. f_equal. lia.
  - cbn [for_range levels]. rewrite Nat2N.id.
    pose proof (blend_loop t (n - (k + 1)) [] points) as P.
    cbn [length app N.of_nat] in P. rewrite P by lia. clear P.
    set (points1 := firstn (n - (k + 1)) (step t points) ++
                    skipn (n - (k + 1)) points).
    assert (L1 : length points1 = n).
    { unfold points1. rewrite length_app, length_firstn, length_skipn,
        step_length. lia. }
    replace (N.of_nat k + 1)%N with (N.of_nat (S k)) by lia.
    destruct (IH (S k) points1 L1 ltac:(lia)) as [L2 F2].
    split; [exact L2|].
    replace (n - k - S c)%nat with (n - S k - c)%nat by lia.
    rewrite F2. f_equal. unfold points1.
    rewrite firstn_app, length_firstn, step_length.
    replace (n - S k - Nat.min (n - (k + 1)) (length points - 1))%nat
      with O by lia.
    cbn [firstn]. rewrite app_nil_r, firstn_firstn.
    replace (Nat.min (n - S k) (n - (k + 1))) with (n - S k)%nat by lia.
    rewrite firstn_step. f_equal. f_equal. lia.
Qed.

(** [bezier] returns the single point of the last level of De Casteljau's
    scheme on the positions. *)
Lemma bezier_levels (vs : list practice3.vertex) (t : Q) :
  vs <> [] ->
  exists p,
    levels t (length vs - 1) (map practice3.position vs) = [p] /\
    practice3.bezier vs t = Value p.
Proof.
  intros NE. unfold practice3.bezier.
  set (n := length vs).
  assert (N1 : (1 <= n)%nat).
  { unfold n. destruct vs; [congruence|simpl; lia]. }
  pose proof (fill_loop
                (fun i => practice3.position
                            (nth i vs (practice3.Vertex (practice3.Vec2 0 0) 0 [])))
                n [] (repeat (practice3.Vec2 0 0) n) (repeat_length _ _)) as F.
  cbn [length app N.of_nat] in F. rewrite F. clear F.
  change (seq 0 n) with (seq 0 (length vs)). rewrite map_nth_seq.
  destruct (passes_loop t n (n - 1) 0 (map practice3.position vs)
              ltac:(rewrite length_map; reflexivity) ltac:(lia)) as [L F].
  cbn [N.of_nat] in L, F.
  set (final := for_range (n - 1) 0%N _ _) in *.
  replace (n - 0 - (n - 1))%nat with 1%nat in F by lia.
  replace (n - 0)%nat with (length (map practice3.position vs)) in F
    by (rewrite length_map; unfold n; lia).
  rewrite firstn_all in F.
  destruct final as [|p final']; [simpl in L; lia|].
  exists p. cbn [firstn] in F. rewrite <- F. split; reflexivity.
Qed.

Lemma step_tl (t : Q) (l : list practice3.vec2) :
  step t (tl l) = tl (step t l).
Proof. destruct l as [|a [|b l]]; reflexivity. Qed.

Lemma step_removelast (t : Q) (l : list practice3.vec2) :
  step t (removelast l) = removelast (step t l).
Proof.
  induction l as [|a [|b [|c l]] IH]; try reflexivity.
  change (removelast (a :: b :: c :: l))
    with (a :: b :: removelast (c :: l)).
  change (step t (a :: b :: removelast (c :: l)))
    with (mix2 t a b :: step t (b :: removelast (c :: l))).
  change (b :: removelast (c :: l)) with (removelast (b :: c :: l)).
  rewrite IH.
  change (step t (a :: b :: c :: l))
    with (mix2 t a b :: step t (b :: c :: l)).
  change (step t (b :: c :: l)) with (mix2 t b c :: step t (c :: l)).
  reflexivity.
Qed.

Lemma levels_tl (t : Q) (k : nat) :
  forall l, levels t k (tl l) = tl (levels t k l).
Proof.
  induction k as [|k IH]; intros l; simpl; [reflexivity|].
  rewrite step_tl. apply IH.
Qed.

Lemma levels_removelast (t : Q) (k : nat) :
  forall l, levels t k (removelast l) = removelast (levels t k l).
Proof.
  induction k as [|k IH]; intros l; simpl; [reflexivity|].
  rewrite step_removelast. apply IH.
Qed.

Lemma levels_succ (t : Q) (k : nat) :
  forall l, levels t (S k) l = step t (levels t k l).
Proof.
  induction k as [|k IH]; intros l; [reflexivity|].
  change (levels t (S (S k)) l) with (levels t (S k) (step t l)).
  rewrite IH. reflexivity.
Qed.

Lemma map_removelast {A B} (f : A -> B) (l : list A) :
  map f (removelast l) = removelast (map f l).
Proof.
  induction l as [|a [|b l] IH]; try reflexivity.
  change (removelast (a :: b :: l)) with (a :: removelast (b :: l)).
  cbn [map]. rewrite IH. reflexivity.
Qed.

Lemma map_tail {A B} (f : A -> B) (l : list A) : map f (tl l) = tl (map f l).
Proof. destruct l; reflexivity. Qed.

Lemma list_of_length_2 {A} (l : list A) :
  length l = 2%nat -> exists a b, l = [a; b].
Proof.
  destruct l as [|a [|b [|c l]]]; try discriminate. eauto.
Qed.

(** X14.  [bezier] computes De Casteljau's recurrence.  Without a control
    point it reads outside its array; with one it returns that point; with
    more, its value at [t] is the blend [a * (1 - t) + b * t] of the value
    [a] for the polygon without its last point and the value [b] for the
    polygon without its first point. *)
Theorem bezier_de_casteljau (t : Q) :
  practice3.bezier [] t = OutOfBounds /\
  (forall v, practice3.bezier [v] t = Value (practice3.position v)) /\
  (forall u v vs,
     let l := u :: v :: vs in
     exists a b,
       practice3.bezier (removelast l) t = Value a /\
       practice3.bezier (tl l) t = Value b /\
       practice3.bezier l t = Value (mix2 t a b)).
Proof.
  split; [reflexivity|]. split; [reflexivity|].
  intros u v vs l.
  set (P := map practice3.position l).
  set (n := length vs).
  assert (Ll : length l = S (S n)) by reflexivity.
  destruct (list_of_length_2 (levels t n P)) as (a & b & E).
  { rewrite levels_length. unfold P. rewrite length_map, Ll. lia. }
  exists a, b.
  destruct (bezier_levels (removelast l) t) as (pa & La & ->).
  { unfold l. change (removelast (u :: v :: vs))
      with (u :: removelast (v :: vs)). discriminate. }
  destruct (bezier_levels (tl l) t) as (pb & Lb & ->); [discriminate|].
  destruct (bezier_levels l t) as (p & Lp & ->); [discriminate|].
  rewrite Ll in Lp. replace (S (S n) - 1)%nat with (S n) in Lp by lia.
  fold P in Lp. rewrite levels_succ, E in Lp.
  injection Lp as <-.
  assert (Lr : length (removelast l) = S n).
  { unfold l. change (removelast (u :: v :: vs))
      with (u :: removelast (v :: vs)).
    cbn [length]. f_equal. clear. revert v.
    induction vs as [|w vs IH]; intros v; [reflexivity|].
    change (removelast (v :: w :: vs)) with (v :: removelast (w :: vs)).
    cbn [length]. rewrite IH. reflexivity. }
  rewrite Lr, map_removelast in La.
  replace (S n - 1)%nat with n in La by lia. fold P in La.
  rewrite levels_removelast, E in La. injection La as <-.
  assert (Lt : length (tl l) = S n) by reflexivity.
  rewrite Lt, map_tail in Lb.
  replace (S n - 1)%nat with n in Lb by lia. fold P in Lb.
  rewrite levels_tl, E in Lb. injection Lb as <-.
  repeat split.
Qed.

Lemma veq2_trans (a b c : practice3.vec2) : veq2 a b -> veq2 b c -> veq2 a c.
Proof.
  intros [A1 A2] [B1 B2]. split; [rewrite A1|rewrite A2]; assumption.
Qed.

Lemma veq2_refl (a : practice3.vec2) : veq2 a a.
Proof. split; reflexivity. Qed.

Lemma levels_hd_at_0 (k : nat) (d : practice3.vec2) :
  forall l, (k < length l)%nat -> veq2 (hd d (levels 0 k l)) (hd d l).
Proof.
  induction k as [|k IH]; intros l L; [apply veq2_refl|].
  destruct l as [|a [|b l]]; [simpl in L; lia|simpl in L; lia|].
  cbn [levels]. apply veq2_trans with (hd d (step 0 (a :: b :: l))).
  - apply IH. rewrite step_length. simpl in L |- *. lia.
  - simpl. split; simpl; ring.
Qed.

Lemma last_step_at_1 (d : practice3.vec2) (l : list practice3.vec2) :
  (2 <= length l)%nat -> veq2 (last (step 1 l) d) (last l d).
Proof.
  induction l as [|a [|b [|c l]] IH]; intros L;
    [simpl in L; lia|simpl in L; lia| |].
  - simpl. split; simpl; ring.
  - change (step 1 (a :: b :: c :: l))
      with (mix2 1 a b :: step 1 (b :: c :: l)).
    change (step 1 (b :: c :: l)) with (mix2 1 b c :: step 1 (c :: l)).
    change (last (mix2 1 a b :: mix2 1 b c :: step 1 (c :: l)) d)
      with (last (mix2 1 b c :: step 1 (c :: l)) d).
    change (last (a :: b :: c :: l) d) with (last (b :: c :: l) d).
    apply IH. simpl. lia.
Qed.

Lemma levels_last_at_1 (k : nat) (d : practice3.vec2) :
  forall l, (k < length l)%nat -> veq2 (last (levels 1 k l) d) (last l d).
Proof.
  induction k as [|k IH]; intros l L; [apply veq2_refl|].
  cbn [levels]. apply veq2_trans with (last (step 1 l) d).
  - apply IH. rewrite step_length. lia.
  - apply last_step_at_1. lia.
Qed.

Lemma last_map_default {A B} (f : A -> B) (l : list A) (d : A) :
  last (map f l) (f d) = f (last l d).
Proof.
  induction l as [|a [|b l] IH]; try reflexivity.
  change (last (a :: b :: l) d) with (last (b :: l) d).
  rewrite <- IH. reflexivity.
Qed.

(** X15.  A Bezier curve starts at its first control point and ends at
    its last one: [bezier] at 0 and at 1 returns these two positions. *)
Theorem bezier_endpoints (v : practice3.vertex) (vs : list practice3.vertex) :
  let l := v :: vs in
  exists p q,
    practice3.bezier l 0 = Value p /\ veq2 p (practice3.position v) /\
    practice3.bezier l 1 = Value q /\
    veq2 q (practice3.position (last l v)).
Proof.
  intros l.
  destruct (bezier_levels l 0) as (p & Lp & Ep); [discriminate|].
  destruct (bezier_levels l 1) as (q & Lq & Eq); [discriminate|].
  exists p, q. split; [exact Ep|]. split; [|split; [exact Eq|]].
  - pose proof (levels_hd_at_0 (length l - 1) p (map practice3.position l)) as H.
    rewrite Lp in H. apply H. rewrite length_map. simpl. lia.
  - pose proof (levels_last_at_1 (length l - 1) (practice3.position v)
                  (map practice3.position l)) as H.
    rewrite Lq in H. cbn [last] in H.
    apply veq2_trans with (last (map practice3.position l) (practice3.position v)).
    + apply H. rewrite length_map. simpl. lia.
    + rewrite last_map_default. apply veq2_refl.
Qed.

Lemma In_step (t : Q) (l : list practice3.vec2) (p : practice3.vec2) :
  In p (step t l) -> exists a b, In a l /\ In b l /\ p = mix2 t a b.
Proof.
  induction l as [|a [|b l] IH]; [intros []|intros []|].
  change (step t (a :: b :: l)) with (mix2 t a b :: step t (b :: l)).
  intros [<-|I].
  - exists a, b. simpl. auto.
  - destruct (IH I) as (c & e & Ic & Ie & ->).
    exists c, e. repeat split; [right; exact Ic|right; exact Ie].
Qed.

Lemma levels_within (t : Q) (f : practice3.vec2 -> Q) (lo hi : Q) :
  0 <= t <= 1 ->
  (forall a b, f (mix2 t a b) == f a * (1 - t) + f b * t) ->
  forall k l,
  (forall p, In p l -> lo <= f p <= hi) ->
  forall p, In p (levels t k l) -> lo <= f p <= hi.
Proof.
  intros T M. induction k as [|k IH]; intros l B p I; [apply B; exact I|].
  cbn [levels] in I. apply (IH (step t l)); [|exact I].
  intros q Iq. destruct (In_step t l q Iq) as (a & b & Ia & Ib & ->).
  pose proof (B a Ia). pose proof (B b Ib). rewrite M. nra.
Qed.



(** * mesh_utils: fill_normals *)

Lemma triple_ind (P : list nat -> Prop) :
  P [] -> (forall a, P [a]) -> (forall a b, P [a; b]) ->
  (forall a b c r, P r -> P (a :: b :: c :: r)) ->
  forall l, P l.
Proof.
  intros P0 P1 P2 P3 l.
  assert (H : P l /\ (forall a, P (a :: l)) /\ (forall a b, P (a :: b :: l))).
  { induction l as [|c r (IH0 & IH1 & IH2)]; [auto|].
    split; [apply IH1|]. split; [intros a; apply IH2|].
    intros a b. apply P3. exact IH0. }
  apply H.
Qed.

Lemma upd_length {A} (i : nat) (v : A) (l : list A) :
  length (upd i v l) = length l.
Proof.
  revert i. induction l as [|a l IH]; intros [|i]; simpl; auto.
Qed.

Lemma map_upd_same {A B} (f : A -> B) (l : list A) :
  forall (i : nat) (a b : A),
  nth_error l i = Some a -> f b = f a -> map f (upd i b l) = map f l.
Proof.
  induction l as [|h l IH]; intros [|i] a b E F; simpl in *;
    try discriminate.
  - injection E as ->. rewrite F. reflexivity.
  - rewrite (IH i a b E F). reflexivity.
Qed.

Lemma add_normal_length (n : vec3) (i : nat) (vs : list mesh_utils.vertex) :
  length (add_normal n i vs) = length vs.
Proof.
  unfold add_normal. destruct (nth_error vs i); [apply upd_length|reflexivity].
Qed.

Lemma add_normal_positions (n : vec3) (i : nat) (vs : list mesh_utils.vertex) :
  map mesh_utils.position (add_normal n i vs) = map mesh_utils.position vs.
Proof.
  unfold add_normal. destruct (nth_error vs i) as [v|] eqn:E; [|reflexivity].
  apply (map_upd_same _ _ _ v); [exact E|reflexivity].
Qed.

Lemma accumulate_well_indexed (indices : list nat) :
  forall vs,
  well_indexed (length vs) indices ->
  exists r,
    accumulate indices vs = Value r /\ length r = length vs /\
    map mesh_utils.position r = map mesh_utils.position vs.
Proof.
  induction indices as [|a|a b|a b c rest IH] using triple_ind;
    intros vs [[k K] B].
  - exists vs. auto.
  - simpl in K. lia.
  - simpl in K. lia.
  - cbn [accumulate].
    destruct (nth_error_Some_lt vs a) as (v0 & ->);
      [apply B; simpl; auto|].
    destruct (nth_error_Some_lt vs b) as (v1 & ->);
      [apply B; simpl; auto|].
    destruct (nth_error_Some_lt vs c) as (v2 & ->);
      [apply B; simpl; auto|].
    set (n := cross _ _).
    destruct (IH (add_normal n c (add_normal n b (add_normal n a vs))))
      as (r & E & L & P).
    { rewrite !add_normal_length. split.
      - exists (k - 1)%nat. simpl in K. lia.
      - intros i I. apply B. simpl. auto. }
    exists r. split; [exact E|].
    rewrite !add_normal_length in L. rewrite !add_normal_positions in P.
    auto.
Qed.

Lemma accumulate_value (indices : list nat) :
  forall vs r,
  accumulate indices vs = Value r -> well_indexed (length vs) indices.
Proof.
  induction indices as [|a|a b|a b c rest IH] using triple_ind;
    intros vs r E.
  - split; [exists O; reflexivity|intros i []].
  - discriminate.
  - discriminate.
  - cbn [accumulate] in E.
    destruct (nth_error vs a) as [v0|] eqn:Ea; [|discriminate].
    destruct (nth_error vs b) as [v1|] eqn:Eb; [|discriminate].
    destruct (nth_error vs c) as [v2|] eqn:Ec; [|discriminate].
    apply IH in E. rewrite !add_normal_length in E.
    destruct E as [[k K] B]. split.
    + exists (S k). simpl. lia.
    + intros i [<-|[<-|[<-|I]]]; [| | |apply B; exact I];
        apply nth_error_Some; congruence.
Qed.

Lemma accumulate_outcome (indices : list nat) :
  forall vs,
  (exists r, accumulate indices vs = Value r) \/
  accumulate indices vs = OutOfBounds.
Proof.
  induction indices as [|a|a b|a b c rest IH] using triple_ind;
    intros vs; cbn [accumulate]; eauto.
  destruct (nth_error vs a); [|auto].
  destruct (nth_error vs b); [|auto].
  destruct (nth_error vs c); [|auto].
  apply IH.
Qed.

Section FillNormalsProperties.

Variable normalize : vec3 -> vec3.

Lemma fill_normals_value
  (vs r : list mesh_utils.vertex) (indices : list nat) :
  fill_normals normalize vs indices = Value r ->
  well_indexed (length vs) indices /\
  length r = length vs /\
  map mesh_utils.position r = map mesh_utils.position vs.
Proof.
  unfold fill_normals.
  set (vs0 := map (fun v => mesh_utils.Vertex (mesh_utils.position v) zero) vs).
  assert (L0 : length vs0 = length vs) by apply length_map.
  assert (P0 : map mesh_utils.position vs0 = map mesh_utils.position vs).
  { unfold vs0. rewrite map_map. reflexivity. }
  destruct (accumulate indices vs0) as [a| | | |] eqn:E; try discriminate.
  intros R. injection R as <-.
  pose proof (accumulate_value _ _ _ E) as W.
  destruct (accumulate_well_indexed indices vs0 W) as (a' & E' & L & P).
  assert (a' = a) by congruence. subst a'.
  rewrite L0 in W. split; [exact W|].
  rewrite length_map, map_map. cbn [mesh_utils.position].
  change (map (fun v => mesh_utils.position v) a)
    with (map mesh_utils.position a).
  split; congruence.
Qed.

Lemma fill_normals_not_value
  (vs : list mesh_utils.vertex) (indices : list nat) :
  (forall r, fill_normals normalize vs indices <> Value r) ->
  fill_normals normalize vs indices = OutOfBounds.
Proof.
  unfold fill_normals. intros N.
  destruct (accumulate_outcome indices
              (map (fun v => mesh_utils.Vertex (mesh_utils.position v) zero) vs))
    as [(a & E)|E]; rewrite E in *.
  - exfalso. apply (N _ eq_refl).
  - reflexivity.
Qed.

Lemma fill_normals_same_positions
  (a b : list mesh_utils.vertex) (indices : list nat) :
  map mesh_utils.position a = map mesh_utils.position b ->
  fill_normals normalize a indices = fill_normals normalize b indices.
Proof.
  intros E. unfold fill_normals.
  replace (map (fun v => mesh_utils.Vertex (mesh_utils.position v) zero) a)
    with (map (fun p => mesh_utils.Vertex p zero) (map mesh_utils.position a))
    by (rewrite map_map; reflexivity).
  replace (map (fun v => mesh_utils.Vertex (mesh_utils.position v) zero) b)
    with (map (fun p => mesh_utils.Vertex p zero) (map mesh_utils.position b))
    by (rewrite map_map; reflexivity).
  rewrite E. reflexivity.
Qed.

(** X17.  [fill_normals] completes exactly when the indices come in
    triples and each of them names a vertex; otherwise it reads outside
    [indices] or [vertices].  When it completes, it leaves the number of
    vertices and every position as they were. *)
Theorem fill_normals_completes_iff_well_indexed
  (vs : list mesh_utils.vertex) (indices : list nat) :
  (well_indexed (length vs) indices ->
   exists r,
     fill_normals normalize vs indices = Value r /\
     length r = length vs /\
     map mesh_utils.position r = map mesh_utils.position vs) /\
  (~ well_indexed (length vs) indices ->
   fill_normals normalize vs indices = OutOfBounds).
Proof.
  split.
  - intros W. unfold fill_normals.
    set (vs0 := map (fun v => mesh_utils.Vertex (mesh_utils.position v) zero) vs).
    assert (L0 : length vs0 = length vs) by apply length_map.
    rewrite <- L0 in W.
    destruct (accumulate_well_indexed indices vs0 W) as (a & E & _).
    assert (R : fill_normals normalize vs indices =
                Value (map (fun v => mesh_utils.Vertex (mesh_utils.position v)
                                       (normalize (mesh_utils.normal v))) a)).
    { unfold fill_normals. fold vs0. rewrite E. reflexivity. }
    rewrite E. eexists. split; [reflexivity|].
    apply (fill_normals_value _ _ _ R).
  - intros N. apply fill_normals_not_value. intros r R.
    apply N. apply (fill_normals_value _ _ _ R).
Qed.

(** X18.  [fill_normals] does not look at the normals it is given: two
    meshes with the same positions get the same result, so running it
    again on its own result changes nothing. *)
Theorem fill_normals_ignores_old_normals
  (vs vs' : list mesh_utils.vertex) (indices : list nat) :
  map mesh_utils.position vs = map mesh_utils.position vs' ->
  fill_normals normalize vs indices = fill_normals normalize vs' indices /\
  (forall r, fill_normals normalize vs indices = Value r ->
             fill_normals normalize r indices = Value r).
Proof.
  intros E. split; [apply fill_normals_same_positions; exact E|].
  intros r R. rewrite <- R. apply fill_normals_same_positions.
  apply (fill_normals_value _ _ _ R).
Qed.

End FillNormalsProperties.

Lemma fill_normals_completes_iff_well_indexed_witness :
  (exists r,
     fill_normals (fun v => v) example_mesh example_indices = Value r /\
     length r = length example_mesh /\
     map mesh_utils.position r = map mesh_utils.position example_mesh) /\
  fill_normals (fun v => v) example_mesh [0; 1]%nat = OutOfBounds.
Proof.
  split.
  - apply (proj1 (fill_normals_completes_iff_well_indexed
                    (fun v => v) example_mesh example_indices)).
    split.
    + exists 2%nat. reflexivity.
    + simpl. intros i I.
      repeat (destruct I as [<-|I]; [lia|]). destruct I.
  - apply (proj2 (fill_normals_completes_iff_well_indexed
                    (fun v => v) example_mesh [0; 1]%nat)).
    intros [[k K] _]. simpl in K. lia.
Defined.

Lemma fill_normals_ignores_old_normals_witness :
  fill_normals (fun v => v) example_mesh example_indices =
  fill_normals (fun v => v) example_mesh_lit example_indices /\
  (forall r,
     fill_normals (fun v => v) example_mesh example_indices = Value r ->
     fill_normals (fun v => v) r example_indices = Value r).
Proof.
  apply (fill_normals_ignores_old_normals
           (fun v => v) example_mesh example_mesh_lit example_indices).
  reflexivity.
Defined.

Lemma nth_error_upd {A} (l : list A) :
  forall (i k : nat) (v a : A),
  nth_error l k = Some a ->
  nth_error (upd i v l) k = Some (if Nat.eqb i k then v else a).
Proof.
  induction l as [|h l IH]; intros [|i] [|k] v a E; simpl in *;
    try discriminate; try assumption.
  - injection E as ->. reflexivity.
  - apply IH. exact E.
Qed.

Lemma add_normal_nth (n : vec3) (i k : nat)
  (vs : list mesh_utils.vertex) (v : mesh_utils.vertex) :
  nth_error vs k = Some v ->
  nth_error (add_normal n i vs) k =
  Some (mesh_utils.Vertex (mesh_utils.position v)
          (fold_left vplus (if Nat.eqb i k then [n] else [])
                     (mesh_utils.normal v))).
Proof.
  intros E. unfold add_normal.
  destruct (Nat.eqb i k) eqn:C.
  - apply Nat.eqb_eq in C. subst i. rewrite E.
    rewrite (nth_error_upd _ _ _ _ _ E), Nat.eqb_refl. reflexivity.
  - destruct (nth_error vs i) as [w|].
    + rewrite (nth_error_upd _ _ _ _ _ E), C. destruct v; reflexivity.
    + rewrite E. destruct v; reflexivity.
Qed.

Lemma nth_map_position (vs : list mesh_utils.vertex) (i : nat)
  (v : mesh_utils.vertex) :
  nth_error vs i = Some v ->
  nth i (map mesh_utils.position vs) zero = mesh_utils.position v.
Proof.
  revert i. induction vs as [|h vs IH]; intros [|i] E; simpl in *;
    try discriminate.
  - injection E as ->. reflexivity.
  - apply IH. exact E.
Qed.

(** The state of the loop over the triangles: every normal has grown by
    the contributions of the triangles processed. *)
Lemma accumulate_contributions (indices : list nat) :
  forall st r,
  accumulate indices st = Value r ->
  forall k v, nth_error st k = Some v ->
  nth_error r k =
  Some (mesh_utils.Vertex (mesh_utils.position v)
          (fold_left vplus
             (contributions (map mesh_utils.position st) indices k)
             (mesh_utils.normal v))).
Proof.
  induction indices as [|a|a b|a b c rest IH] using triple_ind;
    intros st r E k v Ek; try discriminate.
  - injection E as <-. rewrite Ek. destruct v; reflexivity.
  - cbn [accumulate] in E.
    destruct (nth_error st a) as [v0|] eqn:Ea; [|discriminate].
    destruct (nth_error st b) as [v1|] eqn:Eb; [|discriminate].
    destruct (nth_error st c) as [v2|] eqn:Ec; [|discriminate].
    cbn [contributions].
    rewrite (nth_map_position _ _ _ Ea), (nth_map_position _ _ _ Eb),
      (nth_map_position _ _ _ Ec).
    set (n := cross _ _) in *.
    pose proof (add_normal_nth n a k _ _ Ek) as K1.
    pose proof (add_normal_nth n b k _ _ K1) as K2.
    pose proof (add_normal_nth n c k _ _ K2) as K3.
    cbn [mesh_utils.position mesh_utils.normal] in K3.
    rewrite (IH _ _ E k _ K3).
    cbn [mesh_utils.position mesh_utils.normal].
    rewrite !add_normal_positions, !fold_left_app. reflexivity.
Qed.

(** X19.  The normal [fill_normals] leaves at a vertex is the normalised
    sum of the cross products of the triangles around it: one
    [cross (p1 - p0) (p2 - p0)] for each corner of a triangle that is this
    vertex, a triangle that names the vertex twice counting twice. *)
Theorem fill_normals_sums_incident_triangles
  (normalize : vec3 -> vec3)
  (vs r : list mesh_utils.vertex) (indices : list nat)
  (k : nat) (v : mesh_utils.vertex) :
  fill_normals normalize vs indices = Value r ->
  nth_error vs k = Some v ->
  nth_error r k =
  Some (mesh_utils.Vertex (mesh_utils.position v)
          (normalize
             (fold_left vplus
                (contributions (map mesh_utils.position vs) indices k)
                zero))).
Proof.
  unfold fill_normals. intros R Ek.
  set (vs0 := map (fun v => mesh_utils.Vertex (mesh_utils.position v) zero) vs)
    in *.
  destruct (accumulate indices vs0) as [a| | | |] eqn:E; try discriminate.
  injection R as <-.
  assert (E0 : nth_error vs0 k =
               Some (mesh_utils.Vertex (mesh_utils.position v) zero)).
  { unfold vs0. rewrite nth_error_map, Ek. reflexivity. }
  rewrite nth_error_map, (accumulate_contributions _ _ _ E k _ E0).
  cbn [option_map mesh_utils.position mesh_utils.normal].
  unfold vs0. rewrite map_map. reflexivity.
Qed.

Lemma fill_normals_sums_incident_triangles_witness :
  nth_error
    [ mesh_utils.Vertex (Vec3 1 0 (-2)) (Vec3 0 (-8) 8);
      mesh_utils.Vertex (Vec3 0 3 1) (Vec3 0 (-8) 8);
      mesh_utils.Vertex (Vec3 (-1) 2 0) (Vec3 0 (-8) 8) ] 1 =
  Some (mesh_utils.Vertex (mesh_utils.position (mesh_utils.Vertex (Vec3 0 3 1) zero))
          (scale 2
             (fold_left vplus
                (contributions (map mesh_utils.position example_mesh)
                   [0; 1; 2]%nat 1)
                zero))).
Proof.
  apply (fill_normals_sums_incident_triangles (scale 2) example_mesh _
           [0; 1; 2]%nat 1 (mesh_utils.Vertex (Vec3 0 3 1) zero)).
  - vm_compute. reflexivity.
  - reflexivity.
Defined.

(** * make_bezier *)

Lemma to_int_small (z : Z) :
  (-2147483648 <= z < 2147483648)%Z -> practice3.to_int z = z.
Proof.
  intros B. unfold practice3.to_int. cbv zeta.
  destruct (Z.ltb_spec (z mod 4294967296) 2147483648);
    Z.div_mod_to_equations; lia.
Qed.

Lemma nth_upd_eq {A} (l : list A) :
  forall (i : nat) (v d : A), (i < length l)%nat -> nth i (upd i v l) d = v.
Proof.
  induction l as [|h l IH]; intros [|i] v d L; simpl in *;
    try lia; [reflexivity|].
  apply IH. lia.
Qed.

Lemma nth_upd_neq {A} (l : list A) :
  forall (i k : nat) (v d : A), i <> k -> nth k (upd i v l) d = nth k l d.
Proof.
  induction l as [|h l IH]; intros [|i] [|k] v d N; simpl;
    try reflexivity; try congruence.
  apply IH. congruence.
Qed.

Section MakeBezierProperties.

Variable hypot : Q -> Q -> Q.

(** The vertex [make_bezier] stores for the point [p] after the vertex
    [prev]. *)
Let next_vertex (prev : practice3.vertex) (p : practice3.vec2)
  : practice3.vertex :=
  practice3.Vertex p
    (practice3.dist prev +
     hypot (practice3.x (practice3.position prev) - practice3.x p)
           (practice3.y (practice3.position prev) - practice3.y p))
    practice3.red.

Lemma sample_loop_spec (vs : list practice3.vertex) (count : Z) :
  vs <> [] ->
  forall (steps k : nat) (ans : list practice3.vertex),
  (1 <= k)%nat -> (k + steps <= length ans)%nat ->
  exists ans',
    practice3.sample_loop hypot vs count steps (Z.of_nat k) ans = Value ans' /\
    length ans' = length ans /\
    (forall j, (j < k)%nat ->
       nth j ans' practice3.blank = nth j ans practice3.blank) /\
    (forall j, (k <= j < k + steps)%nat ->
       exists p,
         practice3.bezier vs (inject_Z (Z.of_nat j) * 1 / inject_Z count)
           = Value p /\
         nth j ans' practice3.blank =
           next_vertex (nth (j - 1) ans' practice3.blank) p).
Proof.
  intros NE. induction steps as [|steps IH]; intros k ans K L.
  - exists ans. repeat split; auto. intros j J. lia.
  - cbn [practice3.sample_loop].
    destruct (bezier_levels vs (inject_Z (Z.of_nat k) * 1 / inject_Z count) NE)
      as (cur & _ & E).
    rewrite E.
    replace (Z.to_nat (Z.of_nat k - 1)) with (k - 1)%nat by lia.
    rewrite Nat2Z.id.
    fold (next_vertex (nth (k - 1) ans practice3.blank) cur).
    set (v := next_vertex (nth (k - 1) ans practice3.blank) cur).
    replace (Z.of_nat k + 1)%Z with (Z.of_nat (S k)) by lia.
    destruct (IH (S k) (upd k v ans)) as (ans' & R & L' & Before & After).
    { lia. }
    { rewrite upd_length. lia. }
    exists ans'. split; [exact R|]. rewrite upd_length in L'.
    split; [exact L'|]. split.
    + intros j J. rewrite Before by lia. apply nth_upd_neq. lia.
    + intros j J. destruct (Nat.eq_dec j k) as [->|N].
      * exists cur. split; [exact E|].
        rewrite !Before by lia.
        rewrite nth_upd_eq by lia. rewrite nth_upd_neq by lia.
        reflexivity.
      * apply After. lia.
Qed.

(** What [make_bezier] returns on its intended domain. *)
Lemma make_bezier_run (vs : list practice3.vertex) (quality : Z) :
  (2 <= length vs)%nat -> (0 <= quality)%Z ->
  ((Z.of_nat (length vs) - 1) * quality < 2147483647)%Z ->
  let count := ((Z.of_nat (length vs) - 1) * quality)%Z in
  exists ans first,
    practice3.make_bezier hypot vs quality = Value ans /\
    length ans = S (Z.to_nat count) /\
    practice3.bezier vs 0 = Value first /\
    nth 0 ans practice3.blank = practice3.Vertex first 0 practice3.red /\
    forall j, (1 <= j <= Z.to_nat count)%nat ->
      exists p,
        practice3.bezier vs (inject_Z (Z.of_nat j) * 1 / inject_Z count)
          = Value p /\
        nth j ans practice3.blank =
          practice3.Vertex p
            (practice3.dist (nth (j - 1) ans practice3.blank) +
             hypot (practice3.x (practice3.position
                                   (nth (j - 1) ans practice3.blank)) -
                    practice3.x p)
                   (practice3.y (practice3.position
                                   (nth (j - 1) ans practice3.blank)) -
                    practice3.y p))
            practice3.red.
Proof.
  intros N Qn B count.
  assert (NE : vs <> []) by (destruct vs; [simpl in N; lia|discriminate]).
  assert (C0 : (0 <= count)%Z) by (unfold count; nia).
  unfold practice3.make_bezier.
  destruct (Nat.ltb_spec (length vs) 2) as [L|_]; [lia|].
  fold count. rewrite (to_int_small count) by lia.
  destruct (Z.eqb_spec count 2147483647) as [E|_]; [lia|].
  destruct (Z.ltb_spec (count + 1) 0) as [L|_]; [lia|].
  destruct (bezier_levels vs 0 NE) as (first & _ & F). rewrite F.
  replace (Z.to_nat (count + 1)) with (S (Z.to_nat count)) by lia.
  cbn [repeat].
  set (ans0 := upd 0 (practice3.Vertex first 0 practice3.red)
                 (practice3.blank :: repeat practice3.blank (Z.to_nat count))).
  destruct (sample_loop_spec vs count NE (Z.to_nat count) 1 ans0)
    as (ans & R & L & Before & After).
  { lia. }
  { unfold ans0. rewrite upd_length. simpl. rewrite repeat_length. lia. }
  exists ans, first. change (Z.of_nat 1) with 1%Z in R.
  split; [exact R|]. split.
  { rewrite L. unfold ans0. rewrite upd_length. simpl.
    rewrite repeat_length. reflexivity. }
  split; [reflexivity|]. split.
  - rewrite Before by lia. reflexivity.
  - intros j J. apply After. lia.
Qed.

(** X20.  For at least two control points and a quality that is not
    negative, the product [(n - 1) * quality] fitting in an [int],
    [make_bezier] returns [(n - 1) * quality + 1] vertices: the first is
    [bezier] at 0 with length 0; vertex [j] is [bezier] at [j / count],
    and its length is the length of its predecessor plus the [hypot] of
    the step between the two; every colour is [{255, 0, 0, 255}]. *)
Theorem make_bezier_samples (vs : list practice3.vertex) (quality : Z) :
  (2 <= length vs)%nat -> (0 <= quality)%Z ->
  ((Z.of_nat (length vs) - 1) * quality < 2147483647)%Z ->
  let count := ((Z.of_nat (length vs) - 1) * quality)%Z in
  exists ans first,
    practice3.make_bezier hypot vs quality = Value ans /\
    length ans = S (Z.to_nat count) /\
    practice3.bezier vs 0 = Value first /\
    nth 0 ans practice3.blank = practice3.Vertex first 0 practice3.red /\
    forall j, (1 <= j <= Z.to_nat count)%nat ->
      exists p,
        practice3.bezier vs (inject_Z (Z.of_nat j) * 1 / inject_Z count)
          = Value p /\
        nth j ans practice3.blank =
          practice3.Vertex p
            (practice3.dist (nth (j - 1) ans practice3.blank) +
             hypot (practice3.x (practice3.position
                                   (nth (j - 1) ans practice3.blank)) -
                    practice3.x p)
                   (practice3.y (practice3.position
                                   (nth (j - 1) ans practice3.blank)) -
                    practice3.y p))
            practice3.red.
Proof. apply make_bezier_run. Qed.


End MakeBezierProperties.

Lemma make_bezier_samples_witness :
  exists ans first,
    practice3.make_bezier (fun a b => a * a + b * b) example_polygon 2
      = Value ans /\
    length ans = S (Z.to_nat ((Z.of_nat (length example_polygon) - 1) * 2)) /\
    practice3.bezier example_polygon 0 = Value first /\
    nth 0 ans practice3.blank = practice3.Vertex first 0 practice3.red /\
    forall j,
      (1 <= j <= Z.to_nat ((Z.of_nat (length example_polygon) - 1) * 2))%nat ->
      exists p,
        practice3.bezier example_polygon
          (inject_Z (Z.of_nat j) * 1 /
           inject_Z ((Z.of_nat (length example_polygon) - 1) * 2))
          = Value p /\
        nth j ans practice3.blank =
          practice3.Vertex p
            (practice3.dist (nth (j - 1) ans practice3.blank) +
             (fun a b => a * a + b * b)
               (practice3.x (practice3.position
                               (nth (j - 1) ans practice3.blank)) -
                practice3.x p)
               (practice3.y (practice3.position
                               (nth (j - 1) ans practice3.blank)) -
                practice3.y p))
            practice3.red.
Proof.
  apply (make_bezier_samples (fun a b => a * a + b * b) example_polygon 2).
  - simpl. lia.
  - lia.
  - simpl. lia.
Defined.


Lemma mix2_proper (t t' : Q) (a a' b b' : practice3.vec2) :
  t == t' -> veq2 a a' -> veq2 b b' -> veq2 (mix2 t a b) (mix2 t' a' b').
Proof.
  intros T [A1 A2] [B1 B2]. unfold veq2, mix2; simpl.
  rewrite T, A1, A2, B1, B2. split; reflexivity.
Qed.

Lemma step_proper (t t' : Q) (l l' : list practice3.vec2) :
  t == t' -> Forall2 veq2 l l' -> Forall2 veq2 (step t l) (step t' l').
Proof.
  intros T F. induction F as [|a a' r r' A F IH]; [constructor|].
  destruct F as [|b b' r0 r0' B F0]; [constructor|].
  change (step t (a :: b :: r0)) with (mix2 t a b :: step t (b :: r0)).
  change (step t' (a' :: b' :: r0')) with (mix2 t' a' b' :: step t' (b' :: r0')).
  constructor; [apply mix2_proper; assumption|exact IH].
Qed.

Lemma levels_proper (t t' : Q) (k : nat) :
  t == t' -> forall l l',
  Forall2 veq2 l l' -> Forall2 veq2 (levels t k l) (levels t' k l').
Proof.
  intros T. induction k as [|k IH]; intros l l' F; [exact F|].
  cbn [levels]. apply IH, step_proper; assumption.
Qed.

Lemma Forall2_veq2_refl (l : list practice3.vec2) : Forall2 veq2 l l.
Proof. induction l; constructor; [apply veq2_refl|assumption]. Qed.

(** [bezier] at two equal parameters gives equal points. *)
Lemma bezier_proper (vs : list practice3.vertex) (t t' : Q)
  (p p' : practice3.vec2) :
  t == t' ->
  practice3.bezier vs t = Value p -> practice3.bezier vs t' = Value p' ->
  veq2 p p'.
Proof.
  intros T E E'.
  destruct vs as [|v vs]; [discriminate|].
  destruct (bezier_levels (v :: vs) t) as (q & L & R); [discriminate|].
  destruct (bezier_levels (v :: vs) t') as (q' & L' & R'); [discriminate|].
  assert (q = p) by congruence. assert (q' = p') by congruence. subst q q'.
  pose proof (levels_proper t t' (length (v :: vs) - 1) T _ _
                (Forall2_veq2_refl (map practice3.position (v :: vs)))) as F.
  rewrite L, L' in F. inversion F. assumption.
Qed.

Lemma bezier_at_0 (v : practice3.vertex) (vs : list practice3.vertex)
  (p : practice3.vec2) :
  practice3.bezier (v :: vs) 0 = Value p -> veq2 p (practice3.position v).
Proof.
  intros E.
  destruct (bezier_levels (v :: vs) 0) as (q & L & R); [discriminate|].
  assert (q = p) by congruence. subst q.
  pose proof (levels_hd_at_0 (length (v :: vs) - 1) p
                (map practice3.position (v :: vs))) as H.
  rewrite L in H. apply H. rewrite length_map. simpl. lia.
Qed.

Lemma bezier_at_1 (v : practice3.vertex) (vs : list practice3.vertex)
  (p : practice3.vec2) :
  practice3.bezier (v :: vs) 1 = Value p ->
  veq2 p (practice3.position (last (v :: vs) v)).
Proof.
  intros E.
  destruct (bezier_levels (v :: vs) 1) as (q & L & R); [discriminate|].
  assert (q = p) by congruence. subst q.
  pose proof (levels_last_at_1 (length (v :: vs) - 1) (practice3.position v)
                (map practice3.position (v :: vs))) as H.
  rewrite L in H. cbn [last] in H.
  apply veq2_trans
    with (last (map practice3.position (v :: vs)) (practice3.position v)).
  - apply H. rewrite length_map. simpl. lia.
  - rewrite last_map_default. apply veq2_refl.
Qed.

Lemma last_as_nth {A} (l : list A) (d : A) :
  last l d = nth (length l - 1) l d.
Proof.
  induction l as [|a [|b l] IH]; try reflexivity.
  change (last (a :: b :: l) d) with (last (b :: l) d). rewrite IH.
  cbn [length Nat.sub nth]. rewrite Nat.sub_0_r. reflexivity.
Qed.

(** X22.  The polyline [make_bezier] returns starts at the first control
    point and, for a quality of at least 1, ends at the last one. *)
Theorem make_bezier_end_points (hypot : Q -> Q -> Q)
  (v : practice3.vertex) (vs : list practice3.vertex) (quality : Z) :
  let l := v :: vs in
  (2 <= length l)%nat -> (1 <= quality)%Z ->
  ((Z.of_nat (length l) - 1) * quality < 2147483647)%Z ->
  exists ans,
    practice3.make_bezier hypot l quality = Value ans /\
    veq2 (practice3.position (nth 0 ans practice3.blank))
         (practice3.position v) /\
    veq2 (practice3.position (last ans practice3.blank))
         (practice3.position (last l v)).
Proof.
  intros l N Qn B.
  set (count := ((Z.of_nat (length l) - 1) * quality)%Z) in *.
  assert (NE : l <> []) by discriminate.
  assert (C0 : (1 <= count)%Z) by (unfold count; nia).
  unfold practice3.make_bezier.
  destruct (Nat.ltb_spec (length l) 2) as [L|_]; [lia|].
  fold count. rewrite (to_int_small count) by lia.
  destruct (Z.eqb_spec count 2147483647) as [E|_]; [lia|].
  destruct (Z.ltb_spec (count + 1) 0) as [L|_]; [lia|].
  destruct (bezier_levels l 0 NE) as (first & _ & F). rewrite F.
  replace (Z.to_nat (count + 1)) with (S (Z.to_nat count)) by lia.
  cbn [repeat].
  set (ans0 := upd 0 (practice3.Vertex first 0 practice3.red)
                 (practice3.blank :: repeat practice3.blank (Z.to_nat count))).
  assert (L0 : length ans0 = S (Z.to_nat count)).
  { unfold ans0. rewrite upd_length. simpl. rewrite repeat_length.
    reflexivity. }
  destruct (sample_loop_spec hypot l count NE (Z.to_nat count) 1 ans0)
    as (ans & R & L & Before & After); [lia|lia|].
  change (Z.of_nat 1) with 1%Z in R.
  exists ans. split; [exact R|]. split.
  - rewrite Before by lia. unfold ans0. cbn [upd nth practice3.position].
    apply (bezier_at_0 v vs first F).
  - destruct (After (Z.to_nat count)) as (p & E & Ep); [lia|].
    assert (La : last ans practice3.blank =
                 nth (Z.to_nat count) ans practice3.blank).
    { rewrite last_as_nth. f_equal. lia. }
    rewrite La, Ep. cbn [practice3.position].
    destruct (bezier_levels l 1 NE) as (q & _ & E1).
    apply veq2_trans with q.
    + apply (bezier_proper l
               (inject_Z (Z.of_nat (Z.to_nat count)) * 1 / inject_Z count)
               1 p q); [|exact E|exact E1].
      rewrite Z2Nat.id by lia.
      assert (D : ~ inject_Z count == 0).
      { intros Z0. unfold Qeq, inject_Z in Z0. simpl in Z0. lia. }
      field. exact D.
    + apply (bezier_at_1 v vs q E1).
Qed.

Lemma make_bezier_end_points_witness :
  exists ans,
    practice3.make_bezier (fun a b => a * a + b * b) example_polygon 2
      = Value ans /\
    veq2 (practice3.position (nth 0 ans practice3.blank))
         (practice3.Vec2 0 0) /\
    veq2 (practice3.position (last ans practice3.blank))
         (practice3.Vec2 3 0).
Proof.
  apply (make_bezier_end_points (fun a b => a * a + b * b)
           (practice3.Vertex (practice3.Vec2 0 0) 0 [])
           [ practice3.Vertex (practice3.Vec2 1 2) 0 [];
             practice3.Vertex (practice3.Vec2 3 0) 0 [] ] 2).
  - simpl. lia.
  - lia.
  - simpl. lia.
Defined.

(** X23.  When [hypot] is never negative, the lengths [make_bezier]
    stores start at 0 and never decrease along the polyline. *)
Theorem make_bezier_dist_monotone (hypot : Q -> Q -> Q)
  (vs : list practice3.vertex) (quality : Z) :
  (forall a b, 0 <= hypot a b) ->
  (2 <= length vs)%nat -> (0 <= quality)%Z ->
  ((Z.of_nat (length vs) - 1) * quality < 2147483647)%Z ->
  exists ans,
    practice3.make_bezier hypot vs quality = Value ans /\
    practice3.dist (nth 0 ans practice3.blank) == 0 /\
    forall j k, (j <= k < length ans)%nat ->
      practice3.dist (nth j ans practice3.blank) <=
      practice3.dist (nth k ans practice3.blank).
Proof.
  intros H N Qn B.
  destruct (make_bezier_run hypot vs quality N Qn B)
    as (ans & first & R & L & _ & A0 & A).
  exists ans. split; [exact R|]. split; [rewrite A0; reflexivity|].
  intros j k [J K]. induction k as [|k IH].
  - replace j with O by lia. apply Qle_refl.
  - destruct (Nat.eq_dec j (S k)) as [->|NE]; [apply Qle_refl|].
    apply Qle_trans with (practice3.dist (nth k ans practice3.blank)).
    + apply IH; lia.
    + destruct (A (S k)) as (p & _ & E); [lia|].
      rewrite E. cbn [practice3.dist].
      replace (S k - 1)%nat with k by lia.
      pose proof (H (practice3.x (practice3.position
                                    (nth k ans practice3.blank)) -
                     practice3.x p)
                    (practice3.y (practice3.position
                                    (nth k ans practice3.blank)) -
                     practice3.y p)).
      lra.
Qed.

Lemma make_bezier_dist_monotone_witness :
  exists ans,
    practice3.make_bezier (fun a b => a * a + b * b) example_polygon 2
      = Value ans /\
    practice3.dist (nth 0 ans practice3.blank) == 0 /\
    forall j k, (j <= k < length ans)%nat ->
      practice3.dist (nth j ans practice3.blank) <=
      practice3.dist (nth k ans practice3.blank).
Proof.
  apply (make_bezier_dist_monotone (fun a b => a * a + b * b)
           example_polygon 2).
  - intros a b. nra.
  - simpl. lia.
  - lia.
  - simpl. lia.
Defined.
